(** * RadixHeap: a monotone radix heap (ogdf/internal/heap/RadixHeap.h)

    A shallow embedding of [ogdf::RadixHeap<V, P>] and the proofs of its
    specification.

    Data model.  A priority of the unsigned type [P] is a [Z] in
    [0, 2^BITS), where [BITS = sizeof(P) * 8]; [m_bucketMask] likewise.
    [m_size] is a [std::size_t], a [Z] taken modulo [2^64].  A bucket, in
    the source the head pointer of a doubly linked list of nodes, is the
    list of its nodes from the head on; the [prev]/[next] links are the
    positions in that list.  [m_buckets] is the array of the [BITS + 1]
    buckets, indexed by [nat].  Undefined behaviour of the source (an
    access outside [m_buckets], a null dereference) is the result [None].

    The definitions come first: [Msb] (the highest set bit), [RadixHeap]
    (the class, sequences of calls on it, and its invariants), [StackPure]
    and [Stack] (ogdf/basic/Stack.h), [MaxPlanarEdges]
    (ogdf/cluster/Cluster_MaxPlanarEdges.cpp) and the scenario of the
    specification.  The proofs follow: arithmetic of [msbSet], the
    invariants under [insert] and [pop], sequences of calls, the statements
    of the specification, C1 to C10, and further properties of the code, X1
    to X16. *)

From Stdlib Require Import ZArith Lia Sorted QArith.
From stdpp Require Import list strings gmap.

(** ** Most significant set bit *)

Module Msb.

Local Open Scope Z_scope.

(** The portable template [msbSet]:
    [i = 0; while (mask != 0) { mask >>= 1; i++; } return i;].
    For a positive mask, [mask >>= 1] drops the lowest binary digit, so the
    loop is a recursion on the digits of the mask; [msbSet_loop_unfold]
    below shows that this is the loop of the source. *)
Fixpoint msbSet_digits (mask : positive) (i : nat) : nat :=
  match mask with
  | xH => S i
  | xO mask' | xI mask' => msbSet_digits mask' (S i)
  end.

Definition msbSet_loop (mask : Z) (i : nat) : nat :=
  match mask with
  | Zpos p => msbSet_digits p i
  | _ => i
  end.

Definition msbSet (mask : Z) : nat := msbSet_loop mask 0.

(** [__builtin_clz] and its siblings on an operand of [W] bits: the number
    of zero bits above the highest set bit, found by looking at the bits
    from bit [W - 1] downwards.  (The builtin is undefined on 0; the
    overloads below never call it there.) *)
Fixpoint clz_from (W : nat) (mask : Z) : nat :=
  match W with
  | O => O
  | S W' => if Z.testbit mask (Z.of_nat W') then O else S (clz_from W' mask)
  end.

Definition builtin_clz (W : nat) (mask : Z) : Z := Z.of_nat (clz_from W mask).

(** [std::size_t] arithmetic. *)
Definition SIZE_BITS : Z := 64.
Definition size_t (z : Z) : Z := z mod 2 ^ SIZE_BITS.

(** The overloads [msbSet(unsigned int)], [msbSet(unsigned long)] and
    [msbSet(unsigned long long)]:
    [mask == 0 ? 0 : (BITS - __builtin_clz(mask))], computed in
    [std::size_t].  [BITS] is that of the heap's priority type [P], [W] the
    width of the overload's parameter type. *)
Definition msbSet_builtin (BITS W : nat) (mask : Z) : Z :=
  if mask =? 0 then 0 else size_t (Z.of_nat BITS - builtin_clz W mask).

(** The unsigned integer types a heap is instantiated with, and the overload
    that [msbSet(m_bucketMask)] and [msbSet(node->priority ^ m_minimum)]
    resolve to.  An argument of type [unsigned int], [unsigned long] or
    [unsigned long long] matches the non-template overload of that very type
    exactly, and a non-template is preferred over the template.  For a
    narrower [P] the argument has type [P] or, after integral promotion in
    [^], [int]: the template is the only exact match. *)
Inductive ptype := UChar | UShort | UInt | ULong | ULongLong.

Section Dispatch.

Variable sizeof : ptype -> nat.

Definition bits_of (P : ptype) : nat := sizeof P * 8.

Definition msbSet_of (P : ptype) (mask : Z) : Z :=
  match P with
  | UChar | UShort => Z.of_nat (msbSet mask)
  | UInt | ULong | ULongLong => msbSet_builtin (bits_of P) (bits_of P) mask
  end.

End Dispatch.

(** The LP64 data model. *)
Definition sizeof_lp64 (P : ptype) : nat :=
  match P with
  | UChar => 1 | UShort => 2 | UInt => 4 | ULong => 8 | ULongLong => 8
  end%nat.

End Msb.

(** ** The heap *)

Module RadixHeap.

Import Msb.
Local Open Scope Z_scope.

Section Defs.

(** The type of values, and [BITS = sizeof(P) * 8] for the priority type. *)
Variable V : Type.
Variable BITS : nat.

(** [RadixHeapNode<V, P>]; [prev] and [next] are the node's place in the
    list of its bucket. *)
Record RadixHeapNode := Node { value : V; priority : Z }.

(** [using Bucket = RadixHeapNode<V, P> *]: the head of a list of nodes. *)
Local Abbreviation Bucket := (list RadixHeapNode).

Record RadixHeap := Heap {
  m_size : Z;             (* Number of elements. *)
  m_minimum : Z;          (* Priority of the lowest element so far. *)
  m_bucketMask : Z;       (* Mask describing state of buckets. *)
  m_buckets : list Bucket (* Buckets with values. *)
}.

(** A value converted to the unsigned type [P]. *)
Definition to_P (z : Z) : Z := z mod 2 ^ Z.of_nat BITS.

Definition size (h : RadixHeap) : Z := m_size h.

Definition empty (h : RadixHeap) : bool := size h =? 0.

(** [RadixHeap()]: [m_size(0), m_minimum(0), m_bucketMask(0)] and
    [m_buckets.fill(nullptr)]. *)
Definition new : RadixHeap :=
  {| m_size := 0; m_minimum := 0; m_bucketMask := 0;
     m_buckets := replicate (BITS + 1) [] |}.

(** [insert(node)]: link the node at the head of bucket
    [msbSet(node->priority ^ m_minimum)] and, for a bucket other than 0,
    set the bit of the bucket in the mask.  For a priority and a minimum of
    type [P] the index is at most [BITS] ([insert_index_bound]), inside the
    array. *)
Definition insert (node : RadixHeapNode) (h : RadixHeap) : RadixHeap :=
  let ind := msbSet (Z.lxor (priority node) (m_minimum h)) in
  {| m_size := m_size h;
     m_minimum := m_minimum h;
     m_bucketMask :=
       if (ind =? 0)%nat then m_bucketMask h
       else to_P (Z.lor (m_bucketMask h) (Z.shiftl 1 (Z.of_nat (BITS - ind))));
     m_buckets := alter (cons node) ind (m_buckets h) |}.

(** [push(value, priority)]: [m_size++], a new node, [insert(node)]; the
    handle returned is the node. *)
Definition push (value : V) (priority : Z) (h : RadixHeap)
  : RadixHeapNode * RadixHeap :=
  let h1 := {| m_size := size_t (m_size h + 1);
               m_minimum := m_minimum h;
               m_bucketMask := m_bucketMask h;
               m_buckets := m_buckets h |} in
  let node := Node value priority in
  (node, insert node h1).

(** The scan of [pop] for the node of least priority:
    [for (it = bucket; it != nullptr; it = it->next)
       if (it->priority < min->priority) min = it;].
    [min] is a pointer into the list: a position and the node there. *)
Fixpoint scan_min (it : Bucket) (pos : nat) (min : nat * RadixHeapNode)
  : nat * RadixHeapNode :=
  match it with
  | [] => min
  | node :: it' =>
      scan_min it' (S pos)
        (if priority node <? priority (snd min) then (pos, node) else min)
  end.

(** The last loop of [pop]: every node left in the drained bucket, from its
    head on, is inserted again. *)
Definition redistribute (bucket : Bucket) (h : RadixHeap) : RadixHeap :=
  fold_left (fun h' node => insert node h') bucket h.

(** The state of [pop] after bucket [ind] has been detached, its bit cleared
    and the minimum set to the priority of [min], before the last loop. *)
Definition drained (h : RadixHeap) (ind : nat) (min : RadixHeapNode)
  : RadixHeap :=
  {| m_size := size_t (m_size h - 1);
     m_minimum := priority min;
     m_bucketMask :=
       if (ind =? 0)%nat then m_bucketMask h
       else to_P (Z.lxor (m_bucketMask h)
                    (Z.shiftl 1 (Z.of_nat (BITS - ind))));
     m_buckets := <[ind := []]> (m_buckets h) |}.

(** [pop()], returning next to the new state the node that is unlinked; the
    source returns the value of that node, see [pop].  With bucket 0 empty,
    [m_buckets[ind]] outside the array, or a null [bucket] (whose [min] is
    dereferenced), is undefined behaviour.  [msbSet] of a mask of type [P]
    is at most [BITS] ([msbSet_le_iff]), so [BITS + 1 - msbSet(m_bucketMask)]
    does not wrap around. *)
Definition pop_node (h : RadixHeap) : option (RadixHeapNode * RadixHeap) :=
  let sz := size_t (m_size h - 1) in
  match m_buckets h !! 0%nat with
  | None => None
  | Some (head :: rest) =>
      Some (head,
            {| m_size := sz; m_minimum := m_minimum h;
               m_bucketMask := m_bucketMask h;
               m_buckets := <[0%nat := rest]> (m_buckets h) |})
  | Some [] =>
      let ind := (BITS + 1 - msbSet (m_bucketMask h))%nat in
      match m_buckets h !! ind with
      | None => None
      | Some [] => None
      | Some (first :: rest) =>
          let bucket := first :: rest in
          let min := scan_min bucket 0 (0%nat, first) in
          let bucket' := delete (fst min) bucket in
          Some (snd min, redistribute bucket' (drained h ind (snd min)))
      end
  end.

(** [pop()]: the value of the node that is unlinked. *)
Definition pop (h : RadixHeap) : option (V * RadixHeap) :=
  match pop_node h with
  | None => None
  | Some (node, h') => Some (value node, h')
  end.

(** *** Callers: sequences of operations *)

Inductive op := Push (value : V) (priority : Z) | Pop.

(** A priority is a value of type [P]. *)
Definition is_P (z : Z) : bool := (0 <=? z) && (z <? 2 ^ Z.of_nat BITS).

(** The documented preconditions: no priority below the current minimum is
    pushed, and [pop] is not called on an empty heap. *)
Definition precondition (o : op) (h : RadixHeap) : bool :=
  match o with
  | Push _ p => is_P p && (m_minimum h <=? p)
  | Pop => negb (empty h)
  end.

(** Running a sequence of operations; the result has the nodes popped, in
    the order of the calls. *)
Fixpoint run (ops : list op) (h : RadixHeap)
  : option (list RadixHeapNode * RadixHeap) :=
  match ops with
  | [] => Some ([], h)
  | Push v p :: ops' => run ops' (snd (push v p h))
  | Pop :: ops' =>
      match pop_node h with
      | None => None
      | Some (node, h') =>
          match run ops' h' with
          | None => None
          | Some (out, h'') => Some (node :: out, h'')
          end
      end
  end.

(** The sequence respects the preconditions at each of its calls. *)
Fixpoint respects (ops : list op) (h : RadixHeap) : bool :=
  match ops with
  | [] => true
  | o :: ops' =>
      precondition o h &&
      match o with
      | Push v p => respects ops' (snd (push v p h))
      | Pop =>
          match pop_node h with
          | None => true
          | Some (_, h') => respects ops' h'
          end
      end
  end.

(** A state reached from a new heap by a sequence of calls that respects
    the preconditions. *)
Definition reachable (h : RadixHeap) : Prop :=
  exists ops out, respects ops new = true /\ run ops new = Some (out, h).

(** The nodes pushed by a sequence, and its number of pops. *)
Fixpoint pushed (ops : list op) : list RadixHeapNode :=
  match ops with
  | [] => []
  | Push v p :: ops' => Node v p :: pushed ops'
  | Pop :: ops' => pushed ops'
  end.

Fixpoint pops (ops : list op) : nat :=
  match ops with
  | [] => 0
  | Push _ _ :: ops' => pops ops'
  | Pop :: ops' => S (pops ops')
  end.

(** [while (!heap.empty()) out.push_back(heap.pop());] *)
Fixpoint drain_loop (fuel : nat) (h : RadixHeap)
  : option (list RadixHeapNode * RadixHeap) :=
  if empty h then Some ([], h)
  else
    match fuel with
    | O => None
    | S fuel' =>
        match pop_node h with
        | None => None
        | Some (node, h') =>
            match drain_loop fuel' h' with
            | None => None
            | Some (out, h'') => Some (node :: out, h'')
            end
        end
    end.

Definition drain (h : RadixHeap) : option (list RadixHeapNode * RadixHeap) :=
  drain_loop (Z.to_nat (size h)) h.

(** [~RadixHeap()]: for every bucket of the array, in order,
    [it = bucket; while (it != nullptr) { next = it->next; delete it;
    it = next; }].  The result is the list of the nodes deleted, in the
    order of the calls of [delete]. *)
Fixpoint delete_bucket (it : Bucket) (deleted : list RadixHeapNode)
  : list RadixHeapNode :=
  match it with
  | [] => deleted
  | node :: next => delete_bucket next (deleted ++ [node])
  end.

Definition destroy (h : RadixHeap) : list RadixHeapNode :=
  fold_left (fun deleted bucket => delete_bucket bucket deleted)
    (m_buckets h) [].

(** *** The invariants of the data model *)

(** All nodes of the heap. *)
Definition nodes (h : RadixHeap) : list RadixHeapNode := concat (m_buckets h).

(** A node of bucket [i] has a priority of type [P], not below the minimum,
    whose highest bit differing from the minimum is bit [i] (counted from
    1; 0 for no difference). *)
Definition placed (m : Z) (i : nat) (node : RadixHeapNode) : Prop :=
  is_P (priority node) = true /\ m <= priority node /\
  msbSet (Z.lxor (priority node) m) = i.

Definition buckets_placed (h : RadixHeap) : Prop :=
  forall (i : nat) (bucket : Bucket),
    m_buckets h !! i = Some bucket -> Forall (placed (m_minimum h) i) bucket.

(** Bit [BITS - i] of the mask is set iff bucket [i] is not empty. *)
Definition mask_ok (mask : Z) (buckets : list Bucket) : Prop :=
  forall (i : nat) (bucket : Bucket),
    (1 <= i)%nat -> buckets !! i = Some bucket ->
    Z.testbit mask (Z.of_nat (BITS - i)) = true <-> bucket <> [].

Record Shape (h : RadixHeap) : Prop := {
  shape_length : length (m_buckets h) = (BITS + 1)%nat;
  shape_minimum : is_P (m_minimum h) = true;
  shape_mask_P : is_P (m_bucketMask h) = true;
  shape_placed : buckets_placed h;
  shape_mask : mask_ok (m_bucketMask h) (m_buckets h)
}.

(** [m_size] counts the nodes, in [std::size_t]. *)
Record Inv (h : RadixHeap) : Prop := {
  inv_shape : Shape h;
  inv_size : m_size h = size_t (Z.of_nat (length (nodes h)))
}.

(** Priorities in non-decreasing order. *)
Definition nondecreasing (out : list RadixHeapNode) : Prop :=
  forall (i j : nat) (a b : RadixHeapNode),
    (i <= j)%nat -> out !! i = Some a -> out !! j = Some b ->
    priority a <= priority b.

End Defs.

Abbreviation Bucket V := (list (RadixHeapNode V)).

Arguments Node {V} _ _.
Arguments value {V} _.
Arguments priority {V} _.
Arguments Heap {V} _ _ _ _.
Arguments m_size {V} _.
Arguments m_minimum {V} _.
Arguments m_bucketMask {V} _.
Arguments m_buckets {V} _.
Arguments size {V} _.
Arguments empty {V} _.
Arguments new {V} _.
Arguments insert {V} _ _ _.
Arguments push {V} _ _ _ _.
Arguments scan_min {V} _ _ _.
Arguments redistribute {V} _ _ _.
Arguments drained {V} _ _ _ _.
Arguments pop_node {V} _ _.
Arguments pop {V} _ _.
Arguments Push {V} _ _.
Arguments Pop {V}.
Arguments precondition {V} _ _ _.
Arguments run {V} _ _ _.
Arguments respects {V} _ _ _.
Arguments reachable {V} _ _.
Arguments pushed {V} _.
Arguments pops {V} _.
Arguments drain_loop {V} _ _ _.
Arguments drain {V} _ _.
Arguments delete_bucket {V} _ _.
Arguments destroy {V} _.
Arguments nodes {V} _.
Arguments placed {V} _ _ _ _.
Arguments buckets_placed {V} _ _.
Arguments mask_ok {V} _ _ _.
Arguments Shape {V} _ _.
Arguments Inv {V} _ _.
Arguments nondecreasing {V} _.

End RadixHeap.

(** ** List-based stacks (ogdf/basic/Stack.h)

    [StackPure<E>] is the pointer [m_head] to a chain of [Element]s linked
    by [m_next]: the list of their [m_x], from the head on; a null [m_head]
    is the empty list.  A null dereference is the result [None]. *)

Module StackPure.

Section Defs.

Variable E : Type.

(** [StackPure()]. *)
Definition new : list E := [].

(** [empty()]: [m_head == nullptr]. *)
Definition empty (m_head : list E) : bool :=
  match m_head with
  | [] => true
  | _ :: _ => false
  end.

(** [top()]: [m_head->m_x]. *)
Definition top (m_head : list E) : option E :=
  match m_head with
  | [] => None
  | x :: _ => Some x
  end.

(** [push(x)]: [m_head = new Element(m_head, x)]; [emplace(args...)] does
    the same with the element constructed from [args]. *)
Definition push (x : E) (m_head : list E) : list E := x :: m_head.

Definition emplace (x : E) (m_head : list E) : list E := x :: m_head.

(** [pop()]: unlinks the head and returns its [m_x]. *)
Definition pop (m_head : list E) : option (E * list E) :=
  match m_head with
  | [] => None
  | x :: next => Some (x, next)
  end.

(** [clear()]: [while (m_head) { pX = m_head; m_head = m_head->m_next;
    delete pX; }]. *)
Fixpoint clear (m_head : list E) : list E :=
  match m_head with
  | [] => []
  | _ :: next => clear next
  end.

(** [copy(S)]: with [p] pointing to [m_head] at first, for every element
    [q] of [S] from its head on, a new [Element(nullptr, q->m_x)] is stored
    where [p] points and [p] is moved to the [m_next] of that element.  The
    first round overwrites [m_head], every further round appends at the
    end; without a round [m_head] stays. *)
Fixpoint copy_loop (q : list E) (built : list E) : list E :=
  match q with
  | [] => built
  | x :: q' => copy_loop q' (built ++ [x])
  end.

Definition copy (S : list E) (m_head : list E) : list E :=
  match S with
  | [] => m_head
  | _ :: _ => copy_loop S []
  end.

(** [StackPure(initList)]: [m_head(nullptr)], then [push(x)] for every [x]
    of the list, in order. *)
Definition init (initList : list E) : list E :=
  fold_left (fun m_head x => push x m_head) initList [].

(** [StackPure(const StackPure &S)]: [m_head = nullptr; copy(S)]. *)
Definition copy_construct (S : list E) : list E := copy S [].

(** [StackPure(StackPure &&S)]: [m_head(S.m_head)], [S.m_head = nullptr];
    the new stack and [S] afterwards. *)
Definition move_construct (S : list E) : list E * list E := (S, []).

End Defs.

Arguments new {E}.
Arguments empty {E} _.
Arguments top {E} _.
Arguments push {E} _ _.
Arguments emplace {E} _ _.
Arguments pop {E} _.
Arguments clear {E} _.
Arguments copy_loop {E} _ _.
Arguments copy {E} _ _.
Arguments init {E} _.
Arguments copy_construct {E} _.
Arguments move_construct {E} _.

End StackPure.

(** [Stack<E>] derives from [StackPure<E>] and counts the elements in
    [m_count], a [std::size_t]. *)

Module Stack.

Import Msb.
Local Open Scope Z_scope.

Section Defs.

Variable E : Type.

Record Stack := Build {
  m_head : list E; (* the base StackPure<E> *)
  m_count : Z      (* The number of elements in the list. *)
}.

(** [Stack()]. *)
Definition new : Stack := {| m_head := StackPure.new; m_count := 0 |}.

(** [Stack(initList)]: the base is built from the list, then
    [m_count = initList.size()]. *)
Definition init (initList : list E) : Stack :=
  {| m_head := StackPure.init initList;
     m_count := size_t (Z.of_nat (length initList)) |}.

(** [Stack(const Stack &S)]. *)
Definition copy_construct (S : Stack) : Stack :=
  {| m_head := StackPure.copy_construct (m_head S); m_count := m_count S |}.

(** [Stack(Stack &&S)]: the base is moved, [m_count(S.m_count)], then
    [S.m_count = 0]; the new stack and [S] afterwards. *)
Definition move_construct (S : Stack) : Stack * Stack :=
  let moved := StackPure.move_construct (m_head S) in
  ({| m_head := fst moved; m_count := m_count S |},
   {| m_head := snd moved; m_count := 0 |}).

Definition empty (s : Stack) : bool := StackPure.empty (m_head s).

Definition size (s : Stack) : Z := m_count s.

Definition top (s : Stack) : option E := StackPure.top (m_head s).

(** [push(x)]: [++m_count; StackPure<E>::push(x)]. *)
Definition push (x : E) (s : Stack) : Stack :=
  {| m_head := StackPure.push x (m_head s);
     m_count := size_t (m_count s + 1) |}.

Definition emplace (x : E) (s : Stack) : Stack :=
  {| m_head := StackPure.emplace x (m_head s);
     m_count := size_t (m_count s + 1) |}.

(** [pop()]: [--m_count; return StackPure<E>::pop()]. *)
Definition pop (s : Stack) : option (E * Stack) :=
  match StackPure.pop (m_head s) with
  | None => None
  | Some (x, next) =>
      Some (x, {| m_head := next; m_count := size_t (m_count s - 1) |})
  end.

(** [clear()]: [StackPure<E>::clear(); m_count = 0]. *)
Definition clear (s : Stack) : Stack :=
  {| m_head := StackPure.clear (m_head s); m_count := 0 |}.

(** *** Assignment, on objects in a store

    The assignment operators read their argument [S] through a reference
    after they have changed [*this]; the two may be the same object.  A
    store maps the address of an object to its state. *)

Definition set_head (m_head' : list E) (s : Stack) : Stack :=
  {| m_head := m_head'; m_count := m_count s |}.

Definition set_count (m_count' : Z) (s : Stack) : Stack :=
  {| m_head := m_head s; m_count := m_count' |}.

(** [StackPure<E>::operator=(const StackPure<E> &S)]: [clear(); copy(S)]. *)
Definition pure_assign (this S : nat) (st : gmap nat Stack)
  : option (gmap nat Stack) :=
  t ← st !! this;
  let st := <[this := set_head (StackPure.clear (m_head t)) t]> st in
  s ← st !! S;
  t ← st !! this;
  Some (<[this := set_head (StackPure.copy (m_head s) (m_head t)) t]> st).

(** [Stack<E>::operator=(const Stack<E> &S)]:
    [StackPure<E>::operator=(S); m_count = S.m_count]. *)
Definition assign (this S : nat) (st : gmap nat Stack)
  : option (gmap nat Stack) :=
  st ← pure_assign this S st;
  s ← st !! S;
  t ← st !! this;
  Some (<[this := set_count (m_count s) t]> st).

(** [StackPure<E>::operator=(StackPure<E> &&S)]:
    [clear(); m_head = S.m_head; S.m_head = nullptr]. *)
Definition pure_move_assign (this S : nat) (st : gmap nat Stack)
  : option (gmap nat Stack) :=
  t ← st !! this;
  let st := <[this := set_head (StackPure.clear (m_head t)) t]> st in
  s ← st !! S;
  t ← st !! this;
  let st := <[this := set_head (m_head s) t]> st in
  s ← st !! S;
  Some (<[S := set_head [] s]> st).

(** [Stack<E>::operator=(Stack<E> &&S)]:
    [StackPure<E>::operator=(std::move(S)); m_count = S.m_count;
    S.m_count = 0]. *)
Definition move_assign (this S : nat) (st : gmap nat Stack)
  : option (gmap nat Stack) :=
  st ← pure_move_assign this S st;
  s ← st !! S;
  t ← st !! this;
  let st := <[this := set_count (m_count s) t]> st in
  s ← st !! S;
  Some (<[S := set_count 0 s]> st).

(** *** Callers: sequences of operations on one stack *)

Inductive op := Push (x : E) | Emplace (x : E) | Pop | Top | Clear.

(** [OGDF_ASSERT(m_head != nullptr)] in [pop]; [top] dereferences
    [m_head]. *)
Definition precondition (o : op) (s : Stack) : bool :=
  match o with
  | Pop | Top => negb (empty s)
  | _ => true
  end.

(** The new state and the value returned, if the call returns one. *)
Definition step (o : op) (s : Stack) : option (option E * Stack) :=
  match o with
  | Push x => Some (None, push x s)
  | Emplace x => Some (None, emplace x s)
  | Pop =>
      match pop s with
      | None => None
      | Some (x, s') => Some (Some x, s')
      end
  | Top =>
      match top s with
      | None => None
      | Some x => Some (Some x, s)
      end
  | Clear => Some (None, clear s)
  end.

(** Running a sequence of calls; the result has the values returned by
    [pop] and [top], in the order of the calls. *)
Fixpoint run (ops : list op) (s : Stack) : option (list E * Stack) :=
  match ops with
  | [] => Some ([], s)
  | o :: ops' =>
      match step o s with
      | None => None
      | Some (r, s') =>
          match run ops' s' with
          | None => None
          | Some (out, s'') =>
              Some (match r with Some x => x :: out | None => out end, s'')
          end
      end
  end.

Fixpoint respects (ops : list op) (s : Stack) : bool :=
  match ops with
  | [] => true
  | o :: ops' =>
      precondition o s &&
      match step o s with
      | None => true
      | Some (_, s') => respects ops' s'
      end
  end.

(** [m_count] is the number of elements, in [std::size_t]. *)
Definition counted (s : Stack) : Prop :=
  m_count s = size_t (Z.of_nat (length (m_head s))).

End Defs.

Arguments Build {E} _ _.
Arguments m_head {E} _.
Arguments m_count {E} _.
Arguments new {E}.
Arguments init {E} _.
Arguments copy_construct {E} _.
Arguments move_construct {E} _.
Arguments empty {E} _.
Arguments size {E} _.
Arguments top {E} _.
Arguments push {E} _ _.
Arguments emplace {E} _ _.
Arguments pop {E} _.
Arguments clear {E} _.
Arguments set_head {E} _ _.
Arguments set_count {E} _ _.
Arguments pure_assign {E} _ _ _.
Arguments assign {E} _ _ _.
Arguments pure_move_assign {E} _ _ _.
Arguments move_assign {E} _ _ _.
Arguments Push {E} _.
Arguments Emplace {E} _.
Arguments Pop {E}.
Arguments Top {E}.
Arguments Clear {E}.
Arguments precondition {E} _ _.
Arguments step {E} _ _.
Arguments run {E} _ _.
Arguments respects {E} _ _.
Arguments counted {E} _.

End Stack.

(** ** Planarity constraints (ogdf/cluster/Cluster_MaxPlanarEdges.cpp)

    [node] is the type of the node handles of a graph, compared with [==];
    a [nodePair] has the members [v1] and [v2], an [EdgeVar] the accessors
    [sourceNode()] and [targetNode()], and [m_edges] is a list of node
    pairs, as their declarations are used by the source.  Of the base
    [abacus::Constraint] the right-hand side is kept.  The [double]s that
    [coeff] returns, the constants [1.0] and [0.0], are the rationals 1 and
    0. *)

Module MaxPlanarEdges.

Section Defs.

Variable node : Type.
Context `{EqDecision node}.

Record nodePair := NodePair { v1 : node; v2 : node }.

Record EdgeVar := MkEdgeVar { sourceNode : node; targetNode : node }.

Record MaxPlanarEdgesConstraint := Constraint {
  rhs : Z;                  (* edgeBound, with the sense CSense::Less *)
  m_graphCons : bool;
  m_edges : list nodePair
}.

(** [MaxPlanarEdgesConstraint(master, edgeBound, edges)]:
    [m_graphCons = false] and [m_edges.pushBack(p)] for every [p] of
    [edges], in order. *)
Definition from_edges (edgeBound : Z) (edges : list nodePair)
  : MaxPlanarEdgesConstraint :=
  {| rhs := edgeBound; m_graphCons := false;
     m_edges := fold_left (fun l p => l ++ [p]) edges [] |}.

(** [MaxPlanarEdgesConstraint(master, edgeBound)]: [m_graphCons = true]. *)
Definition for_graph (edgeBound : Z) : MaxPlanarEdgesConstraint :=
  {| rhs := edgeBound; m_graphCons := true; m_edges := [] |}.

(** The test of the loop of [coeff]:
    [(p.v1 == e->sourceNode() && p.v2 == e->targetNode()) ||
     (p.v1 == e->targetNode() && p.v2 == e->sourceNode())]. *)
Definition joins (p : nodePair) (e : EdgeVar) : bool :=
  (bool_decide (v1 p = sourceNode e) && bool_decide (v2 p = targetNode e)) ||
  (bool_decide (v1 p = targetNode e) && bool_decide (v2 p = sourceNode e)).

(** [for (const nodePair &p : m_edges) if (...) return 1.0; return 0.0;] *)
Fixpoint coeff_loop (edges : list nodePair) (e : EdgeVar) : Q :=
  match edges with
  | [] => 0%Q
  | p :: edges' => if joins p e then 1%Q else coeff_loop edges' e
  end.

(** [coeff(v)], for a variable [v] that is an [EdgeVar]. *)
Definition coeff (c : MaxPlanarEdgesConstraint) (e : EdgeVar) : Q :=
  if m_graphCons c then 1%Q else coeff_loop (m_edges c) e.

End Defs.

Arguments NodePair {node} _ _.
Arguments v1 {node} _.
Arguments v2 {node} _.
Arguments MkEdgeVar {node} _ _.
Arguments sourceNode {node} _.
Arguments targetNode {node} _.
Arguments Constraint {node} _ _ _.
Arguments rhs {node} _.
Arguments m_graphCons {node} _.
Arguments m_edges {node} _.
Arguments from_edges {node} _ _.
Arguments for_graph {node} _.
Arguments joins {node _} _ _.
Arguments coeff_loop {node _} _ _.
Arguments coeff {node _} _ _.

End MaxPlanarEdges.

(** ** The scenario of the specification, for [V = std::string]

    The calls, in order; the result has, for each [pop], the value returned
    and [m_minimum] after the call, and the final [empty()]. *)
Definition scenario (BITS : nat) : option (list (string * Z) * bool) :=
  let h := RadixHeap.new BITS in
  let h := snd (RadixHeap.push BITS "a"%string 5 h) in
  let h := snd (RadixHeap.push BITS "b"%string 2 h) in
  let h := snd (RadixHeap.push BITS "c"%string 8 h) in
  '(v1, h) ← RadixHeap.pop BITS h;
  let m1 := RadixHeap.m_minimum h in
  let h := snd (RadixHeap.push BITS "d"%string 6 h) in
  '(v2, h) ← RadixHeap.pop BITS h;
  let m2 := RadixHeap.m_minimum h in
  '(v3, h) ← RadixHeap.pop BITS h;
  let m3 := RadixHeap.m_minimum h in
  '(v4, h) ← RadixHeap.pop BITS h;
  let m4 := RadixHeap.m_minimum h in
  Some ([(v1, m1); (v2, m2); (v3, m3); (v4, m4)], RadixHeap.empty h).

(** The same calls as a sequence of operations. *)
Definition scenario_ops : list (RadixHeap.op string) :=
  [RadixHeap.Push "a"%string 5; RadixHeap.Push "b"%string 2;
   RadixHeap.Push "c"%string 8; RadixHeap.Pop;
   RadixHeap.Push "d"%string 6; RadixHeap.Pop; RadixHeap.Pop; RadixHeap.Pop].

(** A state of a heap over an 8-bit [P] with [Z] values, reached by
    [push(1,5); push(2,2); push(3,8); pop(); push(4,6)]. *)
Definition example_heap : RadixHeap.RadixHeap Z :=
  (RadixHeap.Heap 3 2 (2 ^ 5 + 2 ^ 4)
     [[]; []; []; [RadixHeap.Node 4 6; RadixHeap.Node 1 5];
      [RadixHeap.Node 3 8]; []; []; []; []])%Z.

(** * Proofs *)

Import Msb.
Local Open Scope Z_scope.

(** *** The template is the loop of the source *)

Lemma msbSet_loop_unfold (mask : Z) (i : nat) :
  0 <= mask ->
  msbSet_loop mask i =
    if mask =? 0 then i else msbSet_loop (Z.shiftr mask 1) (S i).
Proof.
  intros Hm. destruct mask as [|p|p]; [reflexivity| |lia].
  destruct p; reflexivity.
Qed.

Lemma msbSet_digits_acc (p : positive) (i : nat) :
  msbSet_digits p i = (i + msbSet_digits p 0)%nat.
Proof.
  revert i. induction p as [p IH|p IH|]; intros i; simpl.
  - rewrite (IH (S i)), (IH 1%nat). lia.
  - rewrite (IH (S i)), (IH 1%nat). lia.
  - lia.
Qed.

Lemma msbSet_digits_log2 (p : positive) :
  Z.of_nat (msbSet_digits p 0) = Z.log2 (Zpos p) + 1.
Proof.
  induction p as [p IH|p IH|]; simpl msbSet_digits.
  - rewrite msbSet_digits_acc, Nat2Z.inj_add, IH.
    change (Z.log2 (Z.pos p~1)) with (Z.pos (Pos.size p)).
    destruct p; simpl; lia.
  - rewrite msbSet_digits_acc, Nat2Z.inj_add, IH.
    change (Z.log2 (Z.pos p~0)) with (Z.pos (Pos.size p)).
    destruct p; simpl; lia.
  - reflexivity.
Qed.

Lemma msbSet_0 : msbSet 0 = 0%nat.
Proof. reflexivity. Qed.

Lemma msbSet_pos (mask : Z) :
  0 < mask -> Z.of_nat (msbSet mask) = Z.log2 mask + 1.
Proof.
  intros Hm. destruct mask as [|p|p]; try lia. apply msbSet_digits_log2.
Qed.

Lemma msbSet_eq_0 (mask : Z) : 0 <= mask -> msbSet mask = 0%nat -> mask = 0.
Proof.
  intros Hm H0. destruct (Z.eq_dec mask 0) as [|Hne]; [assumption|].
  assert (Hp : 0 < mask) by lia.
  pose proof (msbSet_pos mask Hp). pose proof (Z.log2_nonneg mask). lia.
Qed.

(** [msbSet mask <= k] says that the mask fits in [k] bits. *)
Lemma msbSet_le_iff (mask : Z) (k : nat) :
  0 <= mask -> (msbSet mask <= k)%nat <-> mask < 2 ^ Z.of_nat k.
Proof.
  intros Hm. destruct (Z.eq_dec mask 0) as [->|Hne].
  - rewrite msbSet_0. split; intros _; [|lia].
    apply Z.pow_pos_nonneg; lia.
  - assert (Hp : 0 < mask) by lia.
    rewrite (Z.log2_lt_pow2 mask (Z.of_nat k) Hp).
    pose proof (msbSet_pos mask Hp). lia.
Qed.

(** *** Priorities compared through their common prefix

    [msbSet (p ^ m) <= k] says that [p] and [m] agree on every bit from bit
    [k] upwards, that is, [p / 2^k = m / 2^k]. *)

Lemma lxor_lt_pow2_iff (a b k : Z) :
  0 <= a -> 0 <= b -> 0 <= k ->
  Z.lxor a b < 2 ^ k <-> a / 2 ^ k = b / 2 ^ k.
Proof.
  intros Ha Hb Hk.
  assert (Hx : 0 <= Z.lxor a b) by (apply Z.lxor_nonneg; tauto).
  assert (H2 : 0 < 2 ^ k) by (apply Z.pow_pos_nonneg; lia).
  rewrite <- !Z.shiftr_div_pow2 by assumption.
  rewrite <- Z.lxor_eq_0_iff, <- Z.shiftr_lxor, Z.shiftr_div_pow2 by assumption.
  split.
  - intros Hlt. apply Z.div_small. lia.
  - intros H0. apply Z.div_small_iff in H0; lia.
Qed.

Lemma msbSet_lxor_le_iff (a b : Z) (k : nat) :
  0 <= a -> 0 <= b ->
  (msbSet (Z.lxor a b) <= k)%nat <-> a / 2 ^ Z.of_nat k = b / 2 ^ Z.of_nat k.
Proof.
  intros Ha Hb.
  rewrite msbSet_le_iff by (apply Z.lxor_nonneg; tauto).
  apply lxor_lt_pow2_iff; lia.
Qed.

Lemma msbSet_lxor_S_iff (a b : Z) (j : nat) :
  0 <= a -> 0 <= b ->
  msbSet (Z.lxor a b) = S j <->
  a / 2 ^ Z.of_nat (S j) = b / 2 ^ Z.of_nat (S j) /\
  a / 2 ^ Z.of_nat j <> b / 2 ^ Z.of_nat j.
Proof.
  intros Ha Hb.
  rewrite <- !msbSet_lxor_le_iff by assumption. lia.
Qed.

Lemma msbSet_lxor_same (a : Z) : msbSet (Z.lxor a a) = 0%nat.
Proof. rewrite Z.lxor_nilpotent. reflexivity. Qed.

Lemma msbSet_lxor_0_iff (a b : Z) :
  0 <= a -> 0 <= b -> msbSet (Z.lxor a b) = 0%nat <-> a = b.
Proof.
  intros Ha Hb. split.
  - intros H0. apply Z.lxor_eq, msbSet_eq_0; [apply Z.lxor_nonneg; tauto|assumption].
  - intros ->. apply msbSet_lxor_same.
Qed.

Lemma div_pow2_S (a : Z) (j : nat) :
  a / 2 ^ Z.of_nat (S j) = a / 2 ^ Z.of_nat j / 2.
Proof.
  rewrite Nat2Z.inj_succ, Z.pow_succ_r by lia.
  rewrite Z.mul_comm, <- Z.div_div by (try apply Z.pow_pos_nonneg; lia).
  reflexivity.
Qed.

Lemma div_pow2_mono_eq (a b : Z) (i j : nat) :
  (i <= j)%nat ->
  a / 2 ^ Z.of_nat i = b / 2 ^ Z.of_nat i ->
  a / 2 ^ Z.of_nat j = b / 2 ^ Z.of_nat j.
Proof.
  intros Hij Hi. induction Hij as [|j Hij IH]; [assumption|].
  rewrite !div_pow2_S, IH. reflexivity.
Qed.

(** Two priorities that both first differ from [m] at bit [i - 1] agree
    with each other on that bit too. *)
Lemma msbSet_lxor_same_bucket (p q m : Z) (i : nat) :
  0 <= p -> 0 <= q -> 0 <= m ->
  i <> 0%nat ->
  msbSet (Z.lxor p m) = i -> msbSet (Z.lxor q m) = i ->
  (msbSet (Z.lxor p q) < i)%nat.
Proof.
  intros Hp Hq Hm Hi Hpm Hqm. destruct i as [|j]; [congruence|].
  apply msbSet_lxor_S_iff in Hpm as [Hp1 Hp2]; try assumption.
  apply msbSet_lxor_S_iff in Hqm as [Hq1 Hq2]; try assumption.
  apply Nat.lt_succ_r, msbSet_lxor_le_iff; try assumption.
  rewrite !div_pow2_S in Hp1, Hq1.
  pose proof (Z.div_mod (p / 2 ^ Z.of_nat j) 2).
  pose proof (Z.div_mod (q / 2 ^ Z.of_nat j) 2).
  pose proof (Z.div_mod (m / 2 ^ Z.of_nat j) 2).
  pose proof (Z.mod_pos_bound (p / 2 ^ Z.of_nat j) 2).
  pose proof (Z.mod_pos_bound (q / 2 ^ Z.of_nat j) 2).
  pose proof (Z.mod_pos_bound (m / 2 ^ Z.of_nat j) 2).
  lia.
Qed.

(** A priority that first differs from [m] at a bit above the one where
    [m'] does, first differs from [m'] at the same bit. *)
Lemma msbSet_lxor_higher_bucket (p m m' : Z) (i j : nat) :
  0 <= p -> 0 <= m -> 0 <= m' ->
  (i < j)%nat ->
  msbSet (Z.lxor m' m) = i -> msbSet (Z.lxor p m) = j ->
  msbSet (Z.lxor p m') = j.
Proof.
  intros Hp Hm Hm' Hij Hi Hj. destruct j as [|j]; [lia|].
  apply msbSet_lxor_S_iff in Hj as [Hj1 Hj2]; try assumption.
  assert (Hle : (msbSet (Z.lxor m' m) <= i)%nat) by lia.
  apply msbSet_lxor_le_iff in Hle; try assumption.
  apply msbSet_lxor_S_iff; try assumption.
  rewrite (div_pow2_mono_eq m' m i (S j)) by (assumption || lia).
  rewrite (div_pow2_mono_eq m' m i j) by (assumption || lia).
  tauto.
Qed.

(** ... and, when it is not below [m], it is strictly above [m']. *)
Lemma msbSet_lxor_higher_bucket_lt (p m m' : Z) (i j : nat) :
  0 <= p -> 0 <= m -> 0 <= m' ->
  (i < j)%nat -> m <= p ->
  msbSet (Z.lxor m' m) = i -> msbSet (Z.lxor p m) = j ->
  m' < p.
Proof.
  intros Hp Hm Hm' Hij Hmp Hi Hj. destruct j as [|j]; [lia|].
  apply msbSet_lxor_S_iff in Hj as [Hj1 Hj2]; try assumption.
  assert (Hle : (msbSet (Z.lxor m' m) <= i)%nat) by lia.
  apply msbSet_lxor_le_iff in Hle; try assumption.
  apply (div_pow2_mono_eq m' m i j) in Hle; [|lia].
  assert (H2 : 0 < 2 ^ Z.of_nat j) by (apply Z.pow_pos_nonneg; lia).
  pose proof (Z.div_le_mono m p _ H2 Hmp).
  destruct (Z.lt_ge_cases m' p) as [|Hge]; [assumption|].
  pose proof (Z.div_le_mono p m' _ H2 Hge). lia.
Qed.

(** A value of [BITS] bits has its highest set bit at position [BITS] at
    most. *)
Lemma msbSet_lxor_bound (a b : Z) (BITS : nat) :
  0 <= a < 2 ^ Z.of_nat BITS -> 0 <= b < 2 ^ Z.of_nat BITS ->
  (msbSet (Z.lxor a b) <= BITS)%nat.
Proof.
  intros Ha Hb. apply msbSet_lxor_le_iff; try lia.
  rewrite !Z.div_small by lia. reflexivity.
Qed.

(** The highest set bit, read off the binary digits. *)
Lemma msbSet_testbit (mask : Z) :
  0 < mask ->
  Z.testbit mask (Z.of_nat (msbSet mask) - 1) = true /\
  forall k, Z.of_nat (msbSet mask) <= k -> Z.testbit mask k = false.
Proof.
  intros Hm. rewrite (msbSet_pos mask Hm). split.
  - replace (Z.log2 mask + 1 - 1) with (Z.log2 mask) by lia.
    apply Z.bit_log2; assumption.
  - intros k Hk. apply Z.bits_above_log2; lia.
Qed.

(** The bits of two values from [msbSet] of their exclusive or: bit
    [msbSet - 1] is the highest bit at which they differ. *)
Lemma msbSet_lxor_bits (a b : Z) :
  0 <= a -> 0 <= b ->
  (msbSet (Z.lxor a b) <> 0%nat ->
   Z.testbit a (Z.of_nat (msbSet (Z.lxor a b)) - 1) <>
   Z.testbit b (Z.of_nat (msbSet (Z.lxor a b)) - 1)) /\
  (forall k : Z, Z.of_nat (msbSet (Z.lxor a b)) <= k ->
     Z.testbit a k = Z.testbit b k).
Proof.
  intros Ha Hb.
  assert (Hx : 0 <= Z.lxor a b) by (apply Z.lxor_nonneg; tauto).
  destruct (Z.eq_dec (Z.lxor a b) 0) as [H0|Hne].
  - rewrite H0. apply Z.lxor_eq in H0. subst b. split; [done|reflexivity].
  - destruct (msbSet_testbit (Z.lxor a b)) as [Htop Habove]; [lia|].
    rewrite Z.lxor_spec in Htop. split.
    + intros _ Heq. rewrite Heq, xorb_nilpotent in Htop. discriminate.
    + intros k Hk. specialize (Habove k Hk). rewrite Z.lxor_spec in Habove.
      by apply xorb_eq.
Qed.

(** *** Counting leading zeros *)

Lemma testbit_top (mask : Z) (w : nat) :
  0 <= mask < 2 ^ Z.of_nat (S w) ->
  Z.testbit mask (Z.of_nat w) = true <-> 2 ^ Z.of_nat w <= mask.
Proof.
  intros [H0 Hlt].
  assert (H2 : 0 < 2 ^ Z.of_nat w) by (apply Z.pow_pos_nonneg; lia).
  rewrite Nat2Z.inj_succ, Z.pow_succ_r in Hlt by lia.
  rewrite Z.testbit_true by lia.
  assert (Hq : 0 <= mask / 2 ^ Z.of_nat w < 2).
  { split; [apply Z.div_pos; lia|apply Z.div_lt_upper_bound; lia]. }
  split.
  - intros H1. destruct (Z.lt_ge_cases mask (2 ^ Z.of_nat w)) as [Hs|]; [|assumption].
    rewrite Z.div_small in H1 by lia. discriminate.
  - intros Hge.
    assert (1 <= mask / 2 ^ Z.of_nat w) by (apply Z.div_le_lower_bound; lia).
    replace (mask / 2 ^ Z.of_nat w) with 1 by lia. reflexivity.
Qed.

Lemma clz_from_spec (W : nat) (mask : Z) :
  0 < mask < 2 ^ Z.of_nat W ->
  builtin_clz W mask = Z.of_nat W - (Z.log2 mask + 1).
Proof.
  unfold builtin_clz. induction W as [|w IH]; intros [Hp Hlt].
  - simpl in Hlt. lia.
  - simpl clz_from.
    destruct (Z.testbit mask (Z.of_nat w)) eqn:Hb.
    + apply testbit_top in Hb; [|lia].
      rewrite (Z.log2_unique mask (Z.of_nat w)); [lia|lia|].
      split; [assumption|]. replace (Z.succ (Z.of_nat w)) with (Z.of_nat (S w)) by lia.
      assumption.
    + assert (Hs : mask < 2 ^ Z.of_nat w).
      { destruct (Z.lt_ge_cases mask (2 ^ Z.of_nat w)) as [|Hge]; [assumption|].
        apply testbit_top in Hge; [congruence|lia]. }
      rewrite Nat2Z.inj_succ, IH by lia. lia.
Qed.


(** ** Lists of buckets *)

Section Buckets.

Context {A : Type}.
Implicit Types (bs : list (list A)) (b : list A).

Lemma concat_insert_perm bs (i : nat) b b' :
  bs !! i = Some b ->
  b ++ concat (<[i := b']> bs) ≡ₚ b' ++ concat bs.
Proof.
  revert i. induction bs as [|c bs IH]; intros [|i] Hi; simplify_eq/=.
  - by rewrite !(assoc app), (comm app b).
  - rewrite !(assoc app), (comm app b c), (comm app b' c), <- !(assoc app).
    f_equiv. by apply IH.
Qed.

Lemma concat_alter_cons bs (i : nat) (x : A) :
  (i < length bs)%nat ->
  concat (alter (cons x) i bs) ≡ₚ x :: concat bs.
Proof.
  revert i. induction bs as [|c bs IH]; intros [|i] Hi; simpl in *; try lia.
  - done.
  - change (c ++ concat (alter (cons x) i bs) ≡ₚ x :: c ++ concat bs).
    rewrite IH by lia. by rewrite Permutation_middle.
Qed.

Lemma concat_insert_nil bs (i : nat) b :
  bs !! i = Some b -> concat bs ≡ₚ b ++ concat (<[i := []]> bs).
Proof. intros Hi. by rewrite (concat_insert_perm bs i b []). Qed.

Lemma concat_insert_tail bs (i : nat) (x : A) b :
  bs !! i = Some (x :: b) -> concat bs ≡ₚ x :: concat (<[i := b]> bs).
Proof.
  revert i. induction bs as [|c bs IH]; intros [|i] Hi; simplify_eq/=.
  - done.
  - rewrite (IH i) by done. by rewrite Permutation_middle.
Qed.

Lemma concat_nonempty bs :
  concat bs <> [] -> exists (i : nat) b, bs !! i = Some b /\ b <> [].
Proof.
  induction bs as [|c bs IH]; simpl; [done|]. intros Hne.
  destruct c as [|x c].
  - destruct IH as (i & b & Hi & Hb); [done|]. by exists (S i), b.
  - by exists 0%nat, (x :: c).
Qed.

Lemma Forall_concat_lookup (P : A -> Prop) bs :
  Forall P (concat bs) <->
  forall (i : nat) b, bs !! i = Some b -> Forall P b.
Proof.
  induction bs as [|c bs IH]; simpl.
  - split; [intros _ i b Hi; done|constructor].
  - rewrite Forall_app, IH. split.
    + intros [Hc Hbs] [|i] b Hi; simplify_eq/=; eauto.
    + intros H. split; [apply (H 0%nat); done|].
      intros i b Hi. by apply (H (S i)).
Qed.

Lemma elem_of_concat_lookup bs (x : A) :
  x ∈ concat bs <-> exists (i : nat) b, bs !! i = Some b /\ x ∈ b.
Proof.
  induction bs as [|c bs IH]; simpl.
  - split; [by intros ?%not_elem_of_nil|by intros (i & b & ? & _)].
  - rewrite elem_of_app, IH. split.
    + intros [Hx|(i & b & Hi & Hx)]; [by exists 0%nat, c|by exists (S i), b].
    + intros ([|i] & b & Hi & Hx); simplify_eq/=; [by left|right; eauto].
Qed.

End Buckets.

(** ** The invariants are kept by [insert] *)

Import RadixHeap.

Section HeapFacts.

Context {V : Type}.
Variable BITS : nat.
Implicit Types (h : RadixHeap V) (node : RadixHeapNode V) (bucket : Bucket V).

Lemma is_P_iff (z : Z) : is_P BITS z = true <-> 0 <= z < 2 ^ Z.of_nat BITS.
Proof. unfold is_P. rewrite andb_true_iff, Z.leb_le, Z.ltb_lt. tauto. Qed.

Lemma pow2_BITS_pos : 0 < 2 ^ Z.of_nat BITS.
Proof. apply Z.pow_pos_nonneg; lia. Qed.

Lemma to_P_is_P (z : Z) : is_P BITS (to_P BITS z) = true.
Proof. apply is_P_iff, Z.mod_pos_bound, pow2_BITS_pos. Qed.

Lemma to_P_testbit (z : Z) (k : nat) :
  (k < BITS)%nat ->
  Z.testbit (to_P BITS z) (Z.of_nat k) = Z.testbit z (Z.of_nat k).
Proof. intros Hk. apply Z.mod_pow2_bits_low. lia. Qed.

Lemma to_P_small (z : Z) : is_P BITS z = true -> to_P BITS z = z.
Proof. intros Hz%is_P_iff. apply Z.mod_small. assumption. Qed.

Lemma bit_of_bucket (i j : nat) :
  (1 <= i <= BITS)%nat -> (1 <= j <= BITS)%nat ->
  Z.testbit (Z.shiftl 1 (Z.of_nat (BITS - i))) (Z.of_nat (BITS - j)) =
  bool_decide (i = j).
Proof.
  intros Hi Hj. rewrite Z.shiftl_1_l, Z.pow2_bits_eqb by lia.
  case_bool_decide; [apply Z.eqb_eq|apply Z.eqb_neq]; lia.
Qed.

Lemma placed_index_bound (m : Z) (i : nat) node :
  is_P BITS m = true -> placed BITS m i node -> (i <= BITS)%nat.
Proof.
  intros Hm%is_P_iff (Hp%is_P_iff & _ & <-). by apply msbSet_lxor_bound.
Qed.

Lemma insert_index_bound h node :
  is_P BITS (m_minimum h) = true -> is_P BITS (priority node) = true ->
  (msbSet (Z.lxor (priority node) (m_minimum h)) <= BITS)%nat.
Proof. intros Hm%is_P_iff Hp%is_P_iff. by apply msbSet_lxor_bound. Qed.

Lemma insert_m_size node h : m_size (insert BITS node h) = m_size h.
Proof. reflexivity. Qed.

Lemma insert_m_minimum node h : m_minimum (insert BITS node h) = m_minimum h.
Proof. reflexivity. Qed.

(** [insert] links the node at the head of the bucket of its index. *)
Lemma insert_lookup node h (i : nat) :
  m_buckets (insert BITS node h) !! i =
    if decide (msbSet (Z.lxor (priority node) (m_minimum h)) = i)
    then cons node <$> m_buckets h !! i
    else m_buckets h !! i.
Proof.
  unfold insert; simpl. rewrite list_lookup_alter.
  destruct (decide _) as [->|]; reflexivity.
Qed.

Lemma insert_Shape node h :
  Shape BITS h ->
  is_P BITS (priority node) = true -> m_minimum h <= priority node ->
  Shape BITS (insert BITS node h).
Proof.
  intros [Hlen Hmin HmP Hpl Hmask] Hp Hle.
  pose proof (insert_index_bound h node Hmin Hp) as Hind.
  split.
  - unfold insert; simpl. by rewrite length_alter.
  - assumption.
  - unfold insert; simpl. destruct (_ =? _)%nat; [assumption|apply to_P_is_P].
  - intros i bucket. rewrite insert_lookup, insert_m_minimum.
    destruct (decide _) as [Hi|Hi].
    + intros (b & Hb & ->)%fmap_Some. constructor; [done|by eapply Hpl].
    + apply Hpl.
  - intros i bucket Hi. rewrite insert_lookup.
    set (ind := msbSet (Z.lxor (priority node) (m_minimum h))) in *.
    intros Hb.
    assert (Hib : (i <= BITS)%nat).
    { destruct (decide _); [lia|]. apply lookup_lt_Some in Hb. lia. }
    assert (Hbit : Z.testbit (m_bucketMask (insert BITS node h)) (Z.of_nat (BITS - i))
                   = Z.testbit (m_bucketMask h) (Z.of_nat (BITS - i))
                     || bool_decide (ind = i)).
    { unfold insert; simpl. fold ind. destruct (Nat.eqb_spec ind 0) as [H0|H0].
      - rewrite bool_decide_eq_false_2 by lia. by rewrite orb_false_r.
      - rewrite to_P_testbit, Z.lor_spec, bit_of_bucket by lia. reflexivity. }
    rewrite Hbit. destruct (decide (ind = i)) as [Heq|Hne].
    + apply fmap_Some in Hb as (b & _ & ->).
      rewrite bool_decide_eq_true_2, orb_true_r by done. done.
    + rewrite bool_decide_eq_false_2, orb_false_r by done. by apply Hmask.
Qed.

Lemma insert_nodes node h :
  Shape BITS h -> is_P BITS (priority node) = true ->
  nodes (insert BITS node h) ≡ₚ node :: nodes h.
Proof.
  intros [Hlen Hmin _ _ _] Hp. unfold nodes, insert; simpl.
  apply concat_alter_cons. rewrite Hlen.
  pose proof (insert_index_bound h node Hmin Hp). lia.
Qed.

(** ... and by the last loop of [pop] *)

Lemma redistribute_m_size bucket h :
  m_size (redistribute BITS bucket h) = m_size h.
Proof. revert h. induction bucket as [|n l IH]; intros h; [done|]. simpl. by rewrite IH. Qed.

Lemma redistribute_m_minimum bucket h :
  m_minimum (redistribute BITS bucket h) = m_minimum h.
Proof. revert h. induction bucket as [|n l IH]; intros h; [done|]. simpl. by rewrite IH. Qed.

Lemma redistribute_Shape bucket h :
  Shape BITS h ->
  Forall (fun node => is_P BITS (priority node) = true /\
                      m_minimum h <= priority node) bucket ->
  Shape BITS (redistribute BITS bucket h) /\
  nodes (redistribute BITS bucket h) ≡ₚ bucket ++ nodes h.
Proof.
  revert h. induction bucket as [|n l IH]; intros h Hs Hall; [done|].
  apply Forall_cons in Hall as [[Hp Hle] Hall]. simpl.
  destruct (IH (insert BITS n h)) as [Hs' Hperm].
  - by apply insert_Shape.
  - by rewrite insert_m_minimum.
  - split; [assumption|]. rewrite Hperm, insert_nodes by assumption.
    by rewrite Permutation_middle.
Qed.

(** ** The scan for the least priority *)

Lemma scan_min_spec (l : Bucket V) (it : Bucket V) (pos : nat)
    (min : nat * RadixHeapNode V) :
  (forall k : nat, it !! k = l !! (pos + k)%nat) ->
  l !! fst min = Some (snd min) ->
  let r := scan_min it pos min in
  l !! fst r = Some (snd r) /\
  priority (snd r) <= priority (snd min) /\
  Forall (fun node => priority (snd r) <= priority node) it.
Proof.
  revert pos min. induction it as [|n it IH]; intros pos min Hit Hmin; simpl.
  - split; [assumption|]. split; [lia|constructor].
  - set (min' := if priority n <? priority (snd min) then (pos, n) else min).
    assert (Hmin' : l !! fst min' = Some (snd min')).
    { subst min'. destruct (Z.ltb_spec (priority n) (priority (snd min))); [|assumption].
      simpl. specialize (Hit 0%nat). simpl in Hit. by rewrite Nat.add_0_r in Hit. }
    assert (Hle : priority (snd min') <= priority (snd min) /\
                  priority (snd min') <= priority n).
    { subst min'. destruct (Z.ltb_spec (priority n) (priority (snd min))); simpl; lia. }
    destruct (IH (S pos) min') as (H1 & H2 & H3); [|assumption|].
    { intros k. specialize (Hit (S k)). simpl in Hit.
      by replace (S pos + k)%nat with (pos + S k)%nat by lia. }
    split; [assumption|]. split; [lia|]. constructor; [lia|assumption].
Qed.

Lemma scan_min_bucket (first : RadixHeapNode V) (rest : Bucket V) :
  let bucket := first :: rest in
  let min := scan_min bucket 0 (0%nat, first) in
  bucket !! fst min = Some (snd min) /\
  Forall (fun node => priority (snd min) <= priority node) bucket.
Proof.
  intros bucket min.
  destruct (scan_min_spec bucket bucket 0 (0%nat, first)) as (H1 & _ & H3);
    [done|done|]. by split.
Qed.

(** ** The lowest bucket that is not empty *)

Lemma lowest_bucket h :
  Shape BITS h -> m_buckets h !! 0%nat = Some [] -> nodes h <> [] ->
  let ind := (BITS + 1 - msbSet (m_bucketMask h))%nat in
  (1 <= ind <= BITS)%nat /\
  (BITS - ind)%nat = (msbSet (m_bucketMask h) - 1)%nat /\
  Z.testbit (m_bucketMask h) (Z.of_nat (BITS - ind)) = true /\
  (exists first rest, m_buckets h !! ind = Some (first :: rest)) /\
  (forall (j : nat) bucket,
     (j < ind)%nat -> m_buckets h !! j = Some bucket -> bucket = []).
Proof.
  intros [Hlen Hmin HmP Hpl Hmask] H0 Hne ind.
  apply concat_nonempty in Hne as (i & b & Hi & Hb).
  assert (Hi1 : (1 <= i <= BITS)%nat).
  { pose proof (lookup_lt_Some _ _ _ Hi). destruct i; [naive_solver|lia]. }
  assert (Hbit : Z.testbit (m_bucketMask h) (Z.of_nat (BITS - i)) = true).
  { apply (Hmask i b); [lia|done|done]. }
  apply is_P_iff in HmP.
  assert (Hpos : 0 < m_bucketMask h).
  { destruct (Z.eq_dec (m_bucketMask h) 0) as [Hz|]; [|lia].
    rewrite Hz, Z.bits_0 in Hbit. discriminate. }
  destruct (msbSet_testbit _ Hpos) as [Htop Habove].
  assert (Hmsb : (1 <= msbSet (m_bucketMask h) <= BITS)%nat).
  { split.
    - pose proof (msbSet_pos _ Hpos). pose proof (Z.log2_nonneg (m_bucketMask h)). lia.
    - apply msbSet_le_iff; lia. }
  assert (Hk : Z.of_nat (BITS - ind) = Z.of_nat (msbSet (m_bucketMask h)) - 1)
    by (subst ind; lia).
  split; [subst ind; lia|]. split; [subst ind; lia|].
  rewrite Hk. split; [assumption|]. split.
  - destruct (lookup_lt_is_Some_2 (m_buckets h) ind) as [b' Hb']; [subst ind; lia|].
    destruct b' as [|first rest]; [|by eauto].
    exfalso. apply (Hmask ind []); [subst ind; lia|done| |done]. by rewrite Hk.
  - intros j bucket Hj Hjb. destruct j as [|j]; [congruence|].
    destruct bucket as [|x bucket]; [done|]. exfalso.
    assert (Hbj : Z.testbit (m_bucketMask h) (Z.of_nat (BITS - S j)) = true).
    { apply (Hmask (S j) (x :: bucket)); [lia|done|done]. }
    rewrite Habove in Hbj; [discriminate|subst ind; lia].
Qed.

(** ** [pop] *)

Lemma pop_node_fast h head rest :
  m_buckets h !! 0%nat = Some (head :: rest) ->
  pop_node BITS h =
    Some (head, {| m_size := size_t (m_size h - 1);
                   m_minimum := m_minimum h;
                   m_bucketMask := m_bucketMask h;
                   m_buckets := <[0%nat := rest]> (m_buckets h) |}).
Proof. intros H0. unfold pop_node. by rewrite H0. Qed.

Lemma pop_value h (v : V) h' :
  pop BITS h = Some (v, h') <->
  exists node, pop_node BITS h = Some (node, h') /\ v = value node.
Proof.
  unfold pop. destruct (pop_node BITS h) as [[node h1]|].
  - split; [intros [= <- <-]; by exists node|by intros (? & [= <- <-] & ->)].
  - split; [done|by intros (? & ? & _)].
Qed.

Lemma pop_node_slow h first rest :
  m_buckets h !! 0%nat = Some [] ->
  let ind := (BITS + 1 - msbSet (m_bucketMask h))%nat in
  m_buckets h !! ind = Some (first :: rest) ->
  let min := scan_min (first :: rest) 0 (0%nat, first) in
  pop_node BITS h =
    Some (snd min,
          redistribute BITS (delete (fst min) (first :: rest))
            (drained BITS h ind (snd min))).
Proof. intros H0 ind Hind min. unfold pop_node. rewrite H0. fold ind. by rewrite Hind. Qed.

Lemma drained_Shape h (ind : nat) bucket min :
  Shape BITS h ->
  (1 <= ind <= BITS)%nat ->
  Z.testbit (m_bucketMask h) (Z.of_nat (BITS - ind)) = true ->
  m_buckets h !! ind = Some bucket ->
  (forall (j : nat) b, (j < ind)%nat -> m_buckets h !! j = Some b -> b = []) ->
  min ∈ bucket ->
  Shape BITS (drained BITS h ind min).
Proof.
  intros [Hlen Hmin HmP Hpl Hmask] Hind Hbit Hb Hlow Hin.
  assert (Hpm : placed BITS (m_minimum h) ind min).
  { specialize (Hpl ind bucket Hb). rewrite Forall_forall in Hpl. by apply Hpl. }
  destruct Hpm as (HminP & Hmle & Hmi).
  pose proof (proj1 (is_P_iff _) Hmin) as Hmin'.
  pose proof (proj1 (is_P_iff _) HminP) as HminP'.
  assert (Hn0 : (ind =? 0)%nat = false) by (apply Nat.eqb_neq; lia).
  split; unfold drained; simpl.
  - by rewrite length_insert.
  - assumption.
  - rewrite Hn0. apply to_P_is_P.
  - intros j b. unfold buckets_placed; simpl.
    rewrite list_lookup_insert by (rewrite Hlen; lia).
    case_decide as Hj; [intros [= <-]; constructor|]. intros Hjb.
    destruct (Nat.lt_ge_cases j ind) as [Hlt|Hge].
    { rewrite (Hlow j b Hlt Hjb). constructor. }
    assert (Hgt : (ind < j)%nat) by lia.
    specialize (Hpl j b Hjb). eapply Forall_impl; [exact Hpl|].
    intros x (HxP & Hxle & Hxi). pose proof (proj1 (is_P_iff _) HxP).
    split; [assumption|]. split.
    + apply Z.lt_le_incl.
      apply (msbSet_lxor_higher_bucket_lt (priority x) (m_minimum h) (priority min) ind j);
        try lia; assumption.
    + apply (msbSet_lxor_higher_bucket (priority x) (m_minimum h) (priority min) ind j);
        try lia; assumption.
  - intros j b Hj1. rewrite Hn0.
    rewrite list_lookup_insert by (rewrite Hlen; lia).
    intros Hjb.
    case_decide as Hj.
    + destruct Hj as [-> _]. injection Hjb as <-.
      rewrite to_P_testbit, Z.lxor_spec, bit_of_bucket by lia.
      rewrite Hbit, bool_decide_eq_true_2 by done. simpl. split; [discriminate|done].
    + assert (Hjl : (j <= BITS)%nat) by (apply lookup_lt_Some in Hjb; lia).
      assert (Hne : ind <> j) by (intros ->; apply Hj; split; [done|lia]).
      rewrite to_P_testbit, Z.lxor_spec, bit_of_bucket by lia.
      rewrite bool_decide_eq_false_2, xorb_false_r by done.
      by apply Hmask.
Qed.

(** What a call of [pop] on a heap with a node does. *)
Lemma pop_node_Shape h :
  Shape BITS h -> nodes h <> [] ->
  exists min h',
    pop_node BITS h = Some (min, h') /\
    Shape BITS h' /\
    nodes h ≡ₚ min :: nodes h' /\
    m_size h' = size_t (m_size h - 1) /\
    m_minimum h' = priority min /\
    m_minimum h <= priority min.
Proof.
  intros Hs Hne.
  destruct (lookup_lt_is_Some_2 (m_buckets h) 0%nat) as [b0 H0].
  { rewrite (shape_length _ _ _ Hs). lia. }
  destruct b0 as [|head rest].
  - (* bucket 0 is empty: the lowest bucket is drained *)
    destruct (lowest_bucket h Hs H0 Hne) as (Hind & Hk & Hbit & (first & tl & Hb) & Hlow).
    set (ind := (BITS + 1 - msbSet (m_bucketMask h))%nat) in *.
    pose proof (pop_node_slow h first tl H0 Hb) as Hpop.
    destruct (scan_min_bucket first tl) as [Hat Hleast].
    set (min := scan_min (first :: tl) 0 (0%nat, first)) in *.
    simpl in Hpop, Hat, Hleast.
    assert (Hin : snd min ∈ first :: tl) by (apply list_elem_of_lookup; eauto).
    pose proof (drained_Shape h ind _ (snd min) Hs Hind Hbit Hb Hlow Hin) as Hd.
    pose proof (shape_placed _ _ _ Hs ind _ Hb) as Hpl.
    rewrite Forall_forall in Hpl.
    destruct (redistribute_Shape (delete (fst min) (first :: tl))
                (drained BITS h ind (snd min)) Hd) as [Hs' Hperm].
    { apply Forall_forall. intros x Hx.
      assert (Hx' : x ∈ first :: tl).
      { rewrite (delete_Permutation _ _ _ Hat). by right. }
      split; [by apply Hpl|]. simpl. rewrite Forall_forall in Hleast. by apply Hleast. }
    exists (snd min),
      (redistribute BITS (delete (fst min) (first :: tl))
         (drained BITS h ind (snd min))).
    split; [exact Hpop|]. split; [assumption|]. split.
    { rewrite Hperm. unfold nodes. simpl.
      rewrite (concat_insert_nil (m_buckets h) ind _ Hb).
      rewrite (delete_Permutation _ _ _ Hat) at 1. done. }
    split; [by rewrite redistribute_m_size|].
    split; [by rewrite redistribute_m_minimum|].
    by destruct (Hpl _ Hin) as (_ & ? & _).
  - (* bucket 0 has a node: its head is unlinked *)
    pose proof (shape_placed _ _ _ Hs 0%nat _ H0) as Hpl.
    apply Forall_cons in Hpl as [(HhP & Hhle & Hh0) Hrest].
    destruct Hs as [Hlen Hmin HmP Hplaced Hmask].
    apply msbSet_lxor_0_iff in Hh0;
      [|apply is_P_iff in HhP; lia|apply is_P_iff in Hmin; lia].
    eexists _, _. split; [by apply pop_node_fast|]. split; [split; simpl|].
    + by rewrite length_insert.
    + assumption.
    + assumption.
    + intros j b. unfold buckets_placed; simpl.
      rewrite list_lookup_insert by (rewrite Hlen; lia).
      case_decide as Hj; [by intros [= <-]; destruct Hj as [<- _]|apply Hplaced].
    + intros j b Hj1. rewrite list_lookup_insert_ne by lia. by apply Hmask.
    + simpl. split; [|split; [done|split; [done|lia]]].
      unfold nodes; simpl.
      by apply concat_insert_tail.
Qed.

End HeapFacts.

(** ** The invariant along a sequence of operations *)

Section RunFacts.

Context {V : Type}.
Variable BITS : nat.
Implicit Types (h : RadixHeap V) (ops : list (op V)) (out : Bucket V).

Lemma size_t_succ (n : nat) :
  size_t (size_t (Z.of_nat n) + 1) = size_t (Z.of_nat (S n)).
Proof.
  unfold size_t. rewrite Zplus_mod_idemp_l. f_equal. lia.
Qed.

Lemma size_t_pred (n : nat) :
  size_t (size_t (Z.of_nat (S n)) - 1) = size_t (Z.of_nat n).
Proof.
  unfold size_t. rewrite Zminus_mod_idemp_l. f_equal. lia.
Qed.

Lemma size_t_small (n : nat) :
  Z.of_nat n < 2 ^ SIZE_BITS -> size_t (Z.of_nat n) = Z.of_nat n.
Proof. intros Hn. apply Z.mod_small. lia. Qed.

Lemma new_Inv : Inv BITS (@new V BITS).
Proof.
  split; [split|]; simpl.
  - apply length_replicate.
  - apply is_P_iff. pose proof (pow2_BITS_pos BITS). lia.
  - apply is_P_iff. pose proof (pow2_BITS_pos BITS). lia.
  - intros i b [-> _]%lookup_replicate. constructor.
  - intros i b _ [-> _]%lookup_replicate. rewrite Z.bits_0. split; [discriminate|done].
  - unfold nodes; simpl. induction (BITS + 1)%nat as [|n IH]; [done|]. simpl. exact IH.
Qed.

Lemma new_nodes : nodes (@new V BITS) = [].
Proof. unfold nodes; simpl. induction (BITS + 1)%nat as [|n IH]; [done|]. simpl. exact IH. Qed.

Lemma push_Inv h (v : V) (p : Z) :
  Inv BITS h -> precondition BITS (Push v p) h = true ->
  Inv BITS (snd (push BITS v p h)) /\
  nodes (snd (push BITS v p h)) ≡ₚ Node v p :: nodes h /\
  m_minimum (snd (push BITS v p h)) = m_minimum h /\
  m_size (snd (push BITS v p h)) = size_t (m_size h + 1).
Proof.
  intros [Hs Hsz] [HpP Hle%Z.leb_le]%andb_true_iff. unfold push; simpl.
  set (h1 := {| m_size := size_t (m_size h + 1); m_minimum := m_minimum h;
                m_bucketMask := m_bucketMask h; m_buckets := m_buckets h |}).
  assert (Hs1 : Shape BITS h1) by (destruct Hs; by split).
  assert (Hperm : nodes (insert BITS (Node v p) h1) ≡ₚ Node v p :: nodes h).
  { by apply (insert_nodes BITS (Node v p) h1). }
  split; [split|done].
  - by apply insert_Shape.
  - rewrite insert_m_size, Hperm. simpl. rewrite Hsz. apply size_t_succ.
Qed.

Lemma not_empty_nodes h : Inv BITS h -> empty h = false -> nodes h <> [].
Proof.
  intros [_ Hsz] He Hn. unfold empty, size in He. rewrite Hsz, Hn in He. discriminate.
Qed.

Lemma pop_node_Inv h :
  Inv BITS h -> empty h = false ->
  exists min h',
    pop_node BITS h = Some (min, h') /\
    Inv BITS h' /\
    nodes h ≡ₚ min :: nodes h' /\
    m_size h' = size_t (m_size h - 1) /\
    m_minimum h' = priority min /\
    m_minimum h <= priority min.
Proof.
  intros Hinv He. pose proof (not_empty_nodes h Hinv He) as Hne.
  destruct Hinv as [Hs Hsz].
  destruct (pop_node_Shape BITS h Hs Hne) as (min & h' & Hpop & Hs' & Hperm & Hsz' & Hm & Hle).
  exists min, h'. split; [done|]. split; [|done].
  split; [done|]. rewrite Hsz', Hsz, Hperm. simpl. apply size_t_pred.
Qed.

Lemma nondecreasing_nil : nondecreasing ([] : Bucket V).
Proof. intros i j a b _ Hi. done. Qed.

Lemma nondecreasing_cons (a : RadixHeapNode V) out :
  Forall (fun b => priority a <= priority b) out ->
  nondecreasing out -> nondecreasing (a :: out).
Proof.
  intros Hall Hout [|i] [|j] x y Hij Hx Hy; simplify_eq/=; try lia.
  - rewrite Forall_lookup in Hall. by apply (Hall j).
  - apply (Hout i j); [lia|done|done].
Qed.

Lemma nondecreasing_app out1 out2 (m : Z) :
  nondecreasing out1 -> nondecreasing out2 ->
  Forall (fun a => priority a <= m) out1 ->
  Forall (fun b => m <= priority b) out2 ->
  nondecreasing (out1 ++ out2).
Proof.
  intros H1 H2 Hle Hge. induction out1 as [|a out1 IH]; [done|].
  apply Forall_cons in Hle as [Ha Hle]. simpl. apply nondecreasing_cons.
  - apply Forall_app. split.
    + apply Forall_lookup. intros j b Hb. by apply (H1 0%nat (S j)); [lia|done|].
    + eapply Forall_impl; [exact Hge|]. simpl. intros; lia.
  - apply IH; [|done]. intros i j x y Hij Hx Hy. by apply (H1 (S i) (S j)); [lia|..].
Qed.

(** A sequence that respects the preconditions runs without undefined
    behaviour from a state that satisfies the invariant, keeps the
    invariant, and pops the nodes in the order of their priorities, all of
    them between the minimum before and the minimum after. *)
Lemma run_spec ops h :
  Inv BITS h -> respects BITS ops h = true ->
  exists out h',
    run BITS ops h = Some (out, h') /\
    Inv BITS h' /\
    pushed ops ++ nodes h ≡ₚ out ++ nodes h' /\
    length out = pops ops /\
    m_minimum h <= m_minimum h' /\
    Forall (fun a => m_minimum h <= priority a <= m_minimum h') out /\
    nondecreasing out.
Proof.
  revert h. induction ops as [|[v p|] ops IH]; intros h Hinv Hres.
  - exists [], h. split_and!; try done; try lia.
  - simpl in Hres. apply andb_true_iff in Hres as [Hpre Hres].
    destruct (push_Inv h v p Hinv Hpre) as (Hinv1 & Hperm1 & Hmin1 & _).
    destruct (IH _ Hinv1 Hres) as (out & h' & Hrun & Hinv' & Hperm & Hlen & Hmin & Hall & Hnd).
    exists out, h'. rewrite Hmin1 in Hmin, Hall.
    split_and!; try done.
    simpl. rewrite <- Hperm, Hperm1. by rewrite Permutation_middle.
  - simpl in Hres. apply andb_true_iff in Hres as [Hpre Hres].
    apply negb_true_iff in Hpre.
    destruct (pop_node_Inv h Hinv Hpre)
      as (min & h1 & Hpop & Hinv1 & Hperm1 & _ & Hmin1 & Hle1).
    rewrite Hpop in Hres.
    destruct (IH _ Hinv1 Hres) as (out & h' & Hrun & Hinv' & Hperm & Hlen & Hmin & Hall & Hnd).
    exists (min :: out), h'. simpl. rewrite Hpop, Hrun.
    rewrite Hmin1 in Hmin, Hall.
    split_and!; try done.
    + simpl. rewrite Hperm1, <- Permutation_middle. by rewrite Hperm.
    + simpl. by rewrite Hlen.
    + lia.
    + constructor; [lia|]. eapply Forall_impl; [exact Hall|]. simpl. intros; lia.
    + apply nondecreasing_cons; [|done].
      eapply Forall_impl; [exact Hall|]. simpl. intros; lia.
Qed.

Lemma run_app ops1 ops2 h :
  run BITS (ops1 ++ ops2) h =
    match run BITS ops1 h with
    | None => None
    | Some (out1, h1) =>
        match run BITS ops2 h1 with
        | None => None
        | Some (out2, h2) => Some (out1 ++ out2, h2)
        end
    end.
Proof.
  revert h. induction ops1 as [|[v p|] ops1 IH]; intros h; simpl.
  - by destruct (run BITS ops2 h) as [[??]|].
  - apply IH.
  - destruct (pop_node BITS h) as [[min h1]|]; [|done]. rewrite IH.
    destruct (run BITS ops1 h1) as [[out1 h1']|]; [|done].
    by destruct (run BITS ops2 h1') as [[??]|].
Qed.

Lemma respects_app ops1 ops2 h out1 h1 :
  respects BITS (ops1 ++ ops2) h = true ->
  run BITS ops1 h = Some (out1, h1) ->
  respects BITS ops1 h = true /\ respects BITS ops2 h1 = true.
Proof.
  revert h out1. induction ops1 as [|[v p|] ops1 IH]; intros h out1; simpl.
  - by intros ? [= _ <-].
  - intros [Hpre Hres]%andb_true_iff Hrun. rewrite Hpre. simpl. by eapply IH.
  - intros [Hpre Hres]%andb_true_iff. rewrite Hpre. simpl.
    destruct (pop_node BITS h) as [[min h']|]; [|done].
    destruct (run BITS ops1 h') as [[o h'']|] eqn:Hrun; [|done].
    intros [= _ <-]. by eapply IH.
Qed.

(** The drain loop pops every node when their number fits [std::size_t]. *)
Lemma drain_loop_spec (n : nat) h :
  Inv BITS h -> length (nodes h) = n -> Z.of_nat n < 2 ^ SIZE_BITS ->
  exists out h',
    drain_loop BITS n h = Some (out, h') /\
    Inv BITS h' /\ empty h' = true /\ nodes h' = [] /\
    nodes h ≡ₚ out /\
    Forall (fun a => m_minimum h <= priority a) out /\
    nondecreasing out.
Proof.
  revert h. induction n as [|n IH]; intros h Hinv Hlen Hn.
  - assert (He : empty h = true).
    { unfold empty, size. rewrite (inv_size _ _ _ Hinv), Hlen. done. }
    exists [], h. simpl. rewrite He.
    apply nil_length_inv in Hlen. rewrite Hlen.
    split_and!; try done.
  - assert (He : empty h = false).
    { unfold empty, size. rewrite (inv_size _ _ _ Hinv), Hlen, size_t_small by lia.
      apply Z.eqb_neq. lia. }
    destruct (pop_node_Inv h Hinv He)
      as (min & h1 & Hpop & Hinv1 & Hperm1 & _ & Hmin1 & Hle1).
    assert (Hlen1 : length (nodes h1) = n).
    { apply Permutation_length in Hperm1. simpl in Hperm1. lia. }
    destruct (IH h1 Hinv1 Hlen1) as (out & h' & Hd & Hinv' & He' & Hn' & Hperm & Hall & Hnd);
      [lia|].
    exists (min :: out), h'. simpl. rewrite He, Hpop, Hd.
    rewrite Hmin1 in Hall.
    split_and!; try done.
    + by rewrite Hperm1, Hperm.
    + constructor; [lia|]. eapply Forall_impl; [exact Hall|]. simpl. intros; lia.
    + by apply nondecreasing_cons.
Qed.

End RunFacts.

(** * The specification *)

(** ** The two implementations of [msbSet] *)

Lemma msbSet_builtin_template (BITS : nat) (mask : Z) :
  Z.of_nat BITS < 2 ^ SIZE_BITS ->
  0 <= mask < 2 ^ Z.of_nat BITS ->
  msbSet_builtin BITS BITS mask = Z.of_nat (msbSet mask).
Proof.
  intros HB [H0 Hlt]. unfold msbSet_builtin.
  destruct (Z.eqb_spec mask 0) as [->|Hne]; [reflexivity|].
  assert (Hp : 0 < mask) by lia.
  rewrite clz_from_spec, msbSet_pos by lia.
  pose proof (Z.log2_nonneg mask).
  pose proof (proj1 (Z.log2_lt_pow2 mask (Z.of_nat BITS) Hp) Hlt).
  unfold size_t. rewrite Z.mod_small; lia.
Qed.

(** With [BITS] of another type than its own parameter type, an overload
    would not count from the right end; overload resolution never selects
    it for an argument of type [P]. *)
Remark msbSet_builtin_other_width :
  msbSet_builtin 64 32 1 = 33 /\ Z.of_nat (msbSet 1) = 1.
Proof. split; reflexivity. Qed.

(** C6.  Every overload of [msbSet] that a heap over the priority type [P]
    calls, the template for a narrow [P] and the count-leading-zeros
    overload of the type [P] itself otherwise, returns on every mask of type
    [P] what the template returns, and that is the position, counted from 1,
    of the highest set bit of the mask, 0 for the mask 0.  The first part is
    the same for any width [BITS] of [P] and the builtin on operands of that
    width. *)
Theorem C6_msbSet_paths_agree (sizeof : ptype -> nat) (P : ptype) (mask : Z) :
  Z.of_nat (bits_of sizeof P) < 2 ^ SIZE_BITS ->
  0 <= mask < 2 ^ Z.of_nat (bits_of sizeof P) ->
  msbSet_builtin (bits_of sizeof P) (bits_of sizeof P) mask = Z.of_nat (msbSet mask) /\
  msbSet_of sizeof P mask = Z.of_nat (msbSet mask) /\
  (mask = 0 -> msbSet mask = 0%nat) /\
  (mask <> 0 ->
   Z.testbit mask (Z.of_nat (msbSet mask) - 1) = true /\
   (1 <= msbSet mask <= bits_of sizeof P)%nat /\
   forall k : Z, Z.of_nat (msbSet mask) <= k -> Z.testbit mask k = false).
Proof.
  intros HB Hm.
  pose proof (msbSet_builtin_template _ mask HB Hm) as Hb.
  split; [exact Hb|]. split; [destruct P; simpl; solve [reflexivity|exact Hb]|].
  split; [intros ->; reflexivity|]. intros Hne.
  assert (Hp : 0 < mask) by lia.
  destruct (msbSet_testbit mask Hp) as [Htop Habove].
  split; [assumption|]. split; [|assumption]. split.
  - pose proof (msbSet_pos mask Hp). pose proof (Z.log2_nonneg mask). lia.
  - apply msbSet_le_iff; lia.
Qed.

Lemma C6_msbSet_paths_agree_witness :
  msbSet_of sizeof_lp64 ULong (2 ^ 63 + 5) = Z.of_nat (msbSet (2 ^ 63 + 5)) /\
  msbSet (2 ^ 63 + 5) = 64%nat.
Proof.
  split; [|reflexivity].
  apply (C6_msbSet_paths_agree sizeof_lp64 ULong (2 ^ 63 + 5)).
  - reflexivity.
  - split; [discriminate|reflexivity].
Defined.

(** ** [pop] with a node in bucket 0 *)

(** C7.  With a node in bucket 0, [pop] returns the value of the head of
    bucket 0 and unlinks that node; [m_size] is decremented (in
    [std::size_t]), and [m_minimum], [m_bucketMask] and every other bucket
    are as before. *)
Theorem C7_pop_bucket0_frame {V : Type} (BITS : nat) (h : RadixHeap V)
    (head : RadixHeapNode V) (rest : Bucket V) :
  m_buckets h !! 0%nat = Some (head :: rest) ->
  exists h',
    pop BITS h = Some (value head, h') /\
    m_buckets h' !! 0%nat = Some rest /\
    size h' = size_t (size h - 1) /\
    (0 < size h < 2 ^ SIZE_BITS -> size h' = size h - 1) /\
    m_minimum h' = m_minimum h /\
    m_bucketMask h' = m_bucketMask h /\
    length (m_buckets h') = length (m_buckets h) /\
    forall i : nat, i <> 0%nat -> m_buckets h' !! i = m_buckets h !! i.
Proof.
  intros H0. unfold pop. rewrite (pop_node_fast BITS h head rest H0).
  eexists. split; [reflexivity|]. simpl.
  pose proof (lookup_lt_Some _ _ _ H0) as Hlen.
  split; [by rewrite list_lookup_insert_eq|].
  split; [reflexivity|]. split.
  { intros Hpos. unfold size, size_t in *; simpl. apply Z.mod_small. lia. }
  split; [reflexivity|]. split; [reflexivity|].
  split; [apply length_insert|].
  intros i Hi. by apply list_lookup_insert_ne.
Qed.

Lemma C7_pop_bucket0_frame_witness :
  exists h',
    pop 8 (Heap 2 3 1 [[Node "x"%string 3; Node "y"%string 3]; []; []; []; [];
                        []; []; []; [Node "z"%string 200]])
      = Some ("x"%string, h') /\
    h' = Heap 1 3 1 [[Node "y"%string 3]; []; []; []; []; []; []; [];
                     [Node "z"%string 200]].
Proof.
  destruct (C7_pop_bucket0_frame 8
              (Heap 2 3 1 [[Node "x"%string 3; Node "y"%string 3]; []; []; [];
                           []; []; []; []; [Node "z"%string 200]])
              (Node "x"%string 3) [Node "y"%string 3] eq_refl)
    as (h' & Hpop & _).
  exists h'. split; [exact Hpop|].
  vm_compute in Hpop. by injection Hpop as <-.
Defined.

(** ** The scenario *)

(** C9.  On a new heap, for each width of [P], the calls of the scenario
    respect the preconditions and the four calls of [pop] return "b", "a",
    "d" and "c", with the minimum 2, 5 and 6 (and then 8) after them, and
    [empty()] holds at the end. *)
Theorem C9_scenario :
  Forall (fun BITS =>
            respects BITS scenario_ops (new BITS) = true /\
            scenario BITS =
              Some ([("b", 2); ("a", 5); ("d", 6); ("c", 8)], true)%string)
         [8; 16; 32; 64]%nat.
Proof. repeat constructor. Qed.

(** ** Reachable states *)

Lemma reachable_Inv {V : Type} (BITS : nat) (h : RadixHeap V) :
  reachable BITS h -> Inv BITS h.
Proof.
  intros (ops & out & Hres & Hrun).
  destruct (run_spec BITS ops (new BITS) (new_Inv BITS) Hres) as (out' & h' & Hrun' & Hinv & _).
  congruence.
Qed.

(** ** Ties at the minimum *)

Section Ties.

Context {V : Type}.
Variable BITS : nat.
Implicit Types (h : RadixHeap V) (vs : list V).

Lemma push_at_minimum h (v : V) (b0 : Bucket V) :
  m_buckets h !! 0%nat = Some b0 ->
  let h1 := snd (push BITS v (m_minimum h) h) in
  m_buckets h1 !! 0%nat = Some (Node v (m_minimum h) :: b0) /\
  (forall i : nat, i <> 0%nat -> m_buckets h1 !! i = m_buckets h !! i) /\
  <[0%nat := b0]> (m_buckets h1) = m_buckets h /\
  m_minimum h1 = m_minimum h /\
  m_bucketMask h1 = m_bucketMask h /\
  m_size h1 = size_t (m_size h + 1).
Proof.
  intros H0. unfold push, insert; simpl. rewrite msbSet_lxor_same. simpl.
  split; [by rewrite list_lookup_alter_eq, H0|].
  split; [intros i Hi; by apply list_lookup_alter_ne|].
  split; [|done].
  destruct (m_buckets h) as [|b bs]; simplify_eq/=. done.
Qed.

Lemma pushes_at_minimum vs h (b0 : Bucket V) (ops : list (op V)) :
  m_buckets h !! 0%nat = Some b0 ->
  exists h2,
    run BITS (map (fun v => Push v (m_minimum h)) vs ++ ops) h = run BITS ops h2 /\
    m_buckets h2 !! 0%nat =
      Some (rev (map (fun v => Node v (m_minimum h)) vs) ++ b0) /\
    m_minimum h2 = m_minimum h.
Proof.
  revert h b0. induction vs as [|v vs IH]; intros h b0 H0.
  - by exists h.
  - destruct (push_at_minimum h v b0 H0) as (H1 & _ & _ & Hm & _).
    destruct (IH _ _ H1) as (h2 & Hrun & Hb & Hm2).
    exists h2. rewrite Hm in Hrun, Hb, Hm2. cbn [map app run]. rewrite Hrun.
    split; [done|]. split; [|done]. rewrite Hb. cbn [map rev].
    by rewrite <- (assoc app).
Qed.

Lemma pops_of_bucket0 (l : Bucket V) h (rest : Bucket V) :
  m_buckets h !! 0%nat = Some (l ++ rest) ->
  exists h',
    run BITS (replicate (length l) Pop) h = Some (l, h') /\
    m_buckets h' !! 0%nat = Some rest.
Proof.
  revert h. induction l as [|node l IH]; intros h H0.
  - by exists h.
  - simpl. rewrite (pop_node_fast BITS h node (l ++ rest) H0).
    pose proof (lookup_lt_Some _ _ _ H0).
    edestruct IH as (h' & Hrun & Hb); [|rewrite Hrun; by exists h'].
    simpl. by rewrite list_lookup_insert_eq.
Qed.

End Ties.

(** C10.  In a reachable state, a [push] of [v] with the priority
    [m_minimum] links the node at the head of bucket 0, and the next [pop]
    returns [v] and restores the buckets, the minimum and the mask.  Hence
    after values pushed one after the other with that priority, the calls
    of [pop] return them last in, first out. *)
Theorem C10_push_at_minimum_pop {V : Type} (BITS : nat) (h : RadixHeap V) (v : V) :
  reachable BITS h ->
  (exists b0 h',
     m_buckets (snd (push BITS v (m_minimum h) h)) !! 0%nat
       = Some (Node v (m_minimum h) :: b0) /\
     pop BITS (snd (push BITS v (m_minimum h) h)) = Some (v, h') /\
     m_buckets h' = m_buckets h /\
     m_minimum h' = m_minimum h /\
     m_bucketMask h' = m_bucketMask h) /\
  (forall vs : list V,
     exists out h',
       run BITS (map (fun v => Push v (m_minimum h)) vs
                 ++ replicate (length vs) Pop) h = Some (out, h') /\
       map value out = rev vs).
Proof.
  intros Hinv%reachable_Inv.
  destruct (lookup_lt_is_Some_2 (m_buckets h) 0%nat) as [b0 H0].
  { rewrite (shape_length _ _ _ (inv_shape _ _ _ Hinv)). lia. }
  split.
  - destruct (push_at_minimum BITS h v b0 H0) as (H1 & _ & Hb & Hm & Hmask & _).
    exists b0. eexists. split; [exact H1|].
    split; [unfold pop; rewrite (pop_node_fast BITS _ _ _ H1); reflexivity|].
    cbn [m_buckets m_minimum m_bucketMask]. by split_and!.
  - intros vs.
    destruct (pushes_at_minimum BITS vs h b0 (replicate (length vs) Pop) H0)
      as (h2 & Hrun & Hb & _).
    set (l := rev (map (fun v => Node v (m_minimum h)) vs)) in *.
    destruct (pops_of_bucket0 BITS l h2 b0 Hb) as (h' & Hrun' & _).
    assert (Hl : length l = length vs).
    { subst l. by rewrite length_rev, length_map. }
    rewrite Hl in Hrun'. exists l, h'. rewrite Hrun. split; [done|].
    subst l. rewrite map_rev, map_map. simpl. by rewrite map_id.
Qed.

Lemma C10_push_at_minimum_pop_witness :
  exists h',
    run 8 (map (fun v => Push v 2) [10; 11; 12] ++ replicate 3 Pop)
        (Heap 3 2 (2 ^ 5 + 2 ^ 4)
           [[]; []; []; [Node 4 6; Node 1 5]; [Node 3 8]; []; []; []; []])
    = Some ([Node 12 2; Node 11 2; Node 10 2], h').
Proof.
  assert (Hr : reachable 8
                 (Heap 3 2 (2 ^ 5 + 2 ^ 4)
                    [[]; []; []; [Node 4 6; Node 1 5]; [Node 3 8]; []; [];
                     []; []])).
  { exists [Push 1 5; Push 2 2; Push 3 8; Pop; Push 4 6], [Node 2 2].
    split; reflexivity. }
  destruct (C10_push_at_minimum_pop 8 _ 0 Hr) as [_ Hlifo].
  destruct (Hlifo [10; 11; 12]) as (out & h' & Hrun & Hout).
  exists h'. vm_compute in Hrun. injection Hrun as Ho Hh. subst out h'.
  reflexivity.
Defined.

(** ** Sequences of calls on a new heap *)

Section Sequences.

Context {V : Type}.
Variable BITS : nat.
Implicit Types (h : RadixHeap V) (ops : list (op V)) (out : Bucket V).

(** What [run_spec] gives on a new heap. *)
Lemma run_new ops :
  respects BITS ops (new BITS) = true ->
  exists out h,
    run BITS ops (new BITS) = Some (out, h) /\
    Inv BITS h /\
    pushed ops ≡ₚ out ++ nodes h /\
    length out = pops ops /\
    Forall (fun a => priority a <= m_minimum h) out /\
    nondecreasing out.
Proof.
  intros Hres.
  destruct (run_spec BITS ops _ (new_Inv BITS) Hres)
    as (out & h & Hrun & Hinv & Hperm & Hlen & _ & Hall & Hnd).
  exists out, h. rewrite new_nodes, app_nil_r in Hperm.
  split_and!; try done. eapply Forall_impl; [exact Hall|]. simpl. intros; lia.
Qed.

Lemma run_prefix ops1 ops2 :
  respects BITS (ops1 ++ ops2) (new BITS) = true ->
  exists out1 h1 out2 h2,
    run BITS ops1 (new BITS) = Some (out1, h1) /\
    run BITS (ops1 ++ ops2) (new BITS) = Some (out1 ++ out2, h2) /\
    Inv BITS h1 /\ respects BITS ops2 h1 = true /\
    run BITS ops2 h1 = Some (out2, h2) /\
    m_minimum h1 <= m_minimum h2.
Proof.
  intros Hres.
  destruct (run_new _ Hres) as (out & h2 & Hrun & _).
  rewrite run_app in Hrun.
  destruct (run BITS ops1 (new BITS)) as [[out1 h1]|] eqn:Hrun1; [|done].
  destruct (respects_app BITS _ _ _ _ _ Hres Hrun1) as [Hres1 Hres2].
  destruct (run_spec BITS ops1 _ (new_Inv BITS) Hres1) as (? & ? & Hrun1' & Hinv1 & _).
  rewrite Hrun1 in Hrun1'. injection Hrun1' as <- <-.
  destruct (run_spec BITS ops2 h1 Hinv1 Hres2) as (out2 & h2' & Hrun2 & _ & _ & _ & Hmin & _).
  exists out1, h1, out2, h2'. rewrite run_app, Hrun1, Hrun2. done.
Qed.

End Sequences.

(** C1.  A sequence of calls that respects the preconditions runs on a new
    heap without undefined behaviour, and the priorities of the nodes whose
    values its calls of [pop] return, in the order of the calls, never
    decrease.  Each call of [pop] leaves [m_minimum] at the priority of the
    node it returns, and [m_minimum] after any prefix of the calls is at
    most [m_minimum] after all of them. *)
Theorem C1_pop_priorities_nondecreasing {V : Type} (BITS : nat)
    (ops : list (op V)) :
  respects BITS ops (new BITS) = true ->
  exists out h,
    run BITS ops (new BITS) = Some (out, h) /\
    nondecreasing out /\
    (forall ops1 ops2, ops = ops1 ++ ops2 ->
       exists out1 h1,
         run BITS ops1 (new BITS) = Some (out1, h1) /\
         m_minimum h1 <= m_minimum h) /\
    (forall ops1 ops2, ops = ops1 ++ Pop :: ops2 ->
       exists out1 h1 node h2,
         run BITS ops1 (new BITS) = Some (out1, h1) /\
         pop_node BITS h1 = Some (node, h2) /\
         m_minimum h1 <= priority node /\
         m_minimum h2 = priority node).
Proof.
  intros Hres.
  destruct (run_new BITS ops Hres) as (out & h & Hrun & _ & _ & _ & _ & Hnd).
  exists out, h. split_and!; try done.
  - intros ops1 ops2 ->.
    destruct (run_prefix BITS ops1 ops2 Hres)
      as (out1 & h1 & out2 & h2 & Hrun1 & Hrun12 & _ & _ & _ & Hle).
    exists out1, h1. split; [done|]. congruence.
  - intros ops1 ops2 ->.
    destruct (run_prefix BITS ops1 (Pop :: ops2) Hres)
      as (out1 & h1 & out2 & h2 & Hrun1 & _ & Hinv1 & Hres2 & _).
    simpl in Hres2. apply andb_true_iff in Hres2 as [He%negb_true_iff _].
    destruct (pop_node_Inv BITS h1 Hinv1 He) as (node & h1' & Hpop & _ & _ & _ & Hm & Hle).
    exists out1, h1, node, h1'. done.
Qed.

Lemma C1_pop_priorities_nondecreasing_witness :
  exists h,
    run 32 [Push 1 5; Push 2 2; Push 3 8; Pop; Push 4 6; Pop; Push 5 6; Pop;
            Pop; Pop] (new 32)
    = Some ([Node 2 2; Node 1 5; Node 5 6; Node 4 6; Node 3 8], h).
Proof.
  destruct (C1_pop_priorities_nondecreasing 32
              [Push 1 5; Push 2 2; Push 3 8; Pop; Push 4 6; Pop; Push 5 6;
               Pop; Pop; Pop] eq_refl) as (out & h & Hrun & _).
  exists h. vm_compute in Hrun. injection Hrun as Ho Hh. subst out h.
  reflexivity.
Defined.

(** C8.  After a sequence of calls on a new heap that respects the
    preconditions, with [n] calls of [push] and [k] calls of [pop], [k] is
    at most [n], the heap holds [n - k] nodes and [size()] is [n - k] in
    [std::size_t], which is [n - k] itself for fewer than [2^64] nodes;
    [empty()] is [size() == 0].  A new heap has size 0 and minimum 0. *)
Theorem C8_size_conservation {V : Type} (BITS : nat) (ops : list (op V)) :
  respects BITS ops (new BITS) = true ->
  size (@new V BITS) = 0 /\ empty (@new V BITS) = true /\
  m_minimum (@new V BITS) = 0 /\ nodes (@new V BITS) = [] /\
  exists out h,
    run BITS ops (new BITS) = Some (out, h) /\
    length out = pops ops /\
    (pops ops <= length (pushed ops))%nat /\
    length (nodes h) = (length (pushed ops) - pops ops)%nat /\
    size h = size_t (Z.of_nat (length (pushed ops) - pops ops)) /\
    (Z.of_nat (length (pushed ops) - pops ops) < 2 ^ SIZE_BITS ->
     size h = Z.of_nat (length (pushed ops)) - Z.of_nat (pops ops)) /\
    empty h = (size h =? 0).
Proof.
  intros Hres. split_and!; try reflexivity; [apply new_nodes|].
  destruct (run_new BITS ops Hres) as (out & h & Hrun & Hinv & Hperm & Hlen & _).
  apply Permutation_length in Hperm. rewrite length_app, Hlen in Hperm.
  assert (Hn : length (nodes h) = (length (pushed ops) - pops ops)%nat) by lia.
  exists out, h. split_and!; try done; try lia.
  - unfold size. by rewrite (inv_size _ _ _ Hinv), Hn.
  - intros Hlt. unfold size. rewrite (inv_size _ _ _ Hinv), Hn.
    rewrite size_t_small by done. lia.
Qed.

Lemma C8_size_conservation_witness :
  exists out h,
    run 16 [Push 1 7; Push 2 7; Pop; Push 3 9; Push 4 300; Pop] (new 16)
      = Some (out, h) /\
    size h = 4 - 2.
Proof.
  destruct (C8_size_conservation 16
              [Push 1 7; Push 2 7; Pop; Push 3 9; Push 4 300; Pop] eq_refl)
    as (_ & _ & _ & _ & out & h & Hrun & _ & _ & _ & _ & Hsz & _).
  exists out, h. split; [exact Hrun|]. apply Hsz. reflexivity.
Defined.

(** C2.  After a sequence of calls on a new heap that respects the
    preconditions and has fewer than [2^64] calls of [push], the loop
    [while (!empty()) pop()] ends with an empty heap; the nodes popped by
    the sequence and then by the loop are the nodes pushed, each once, and
    they come in the order of their priorities.  For a sequence of calls of
    [push] alone the loop returns all nodes pushed. *)
Theorem C2_drain_sorted_permutation {V : Type} (BITS : nat)
    (ops : list (op V)) :
  respects BITS ops (new BITS) = true ->
  Z.of_nat (length (pushed ops)) < 2 ^ SIZE_BITS ->
  exists out h out' h',
    run BITS ops (new BITS) = Some (out, h) /\
    drain BITS h = Some (out', h') /\
    empty h' = true /\ nodes h' = [] /\
    out ++ out' ≡ₚ pushed ops /\
    map value (out ++ out') ≡ₚ map value (pushed ops) /\
    nondecreasing (out ++ out') /\
    (pops ops = 0%nat -> out = [] /\ out' ≡ₚ pushed ops).
Proof.
  intros Hres Hn.
  destruct (run_new BITS ops Hres) as (out & h & Hrun & Hinv & Hperm & Hlen & Hall & Hnd).
  assert (Hlenh : (length (nodes h) <= length (pushed ops))%nat).
  { apply Permutation_length in Hperm. rewrite length_app in Hperm. lia. }
  assert (Hsz : Z.to_nat (size h) = length (nodes h)).
  { unfold size. rewrite (inv_size _ _ _ Hinv), size_t_small by lia. lia. }
  destruct (drain_loop_spec BITS (length (nodes h)) h Hinv eq_refl)
    as (out' & h' & Hd & _ & He & Hnil & Hperm' & Hall' & Hnd'); [lia|].
  exists out, h, out', h'. unfold drain. rewrite Hsz.
  assert (Hp : out ++ out' ≡ₚ pushed ops) by (by rewrite Hperm, Hperm').
  split_and!; try done.
  - by rewrite Hp.
  - by apply (nondecreasing_app out out' (m_minimum h)).
  - intros H0. rewrite H0 in Hlen. apply nil_length_inv in Hlen. subst out.
    by split.
Qed.

Lemma C2_drain_sorted_permutation_witness :
  exists h h',
    run 8 [Push 1 9; Push 2 255; Push 3 0; Push 4 9; Push 5 128] (new 8)
      = Some ([], h) /\
    drain 8 h
      = Some ([Node 3 0; Node 4 9; Node 1 9; Node 5 128; Node 2 255], h').
Proof.
  destruct (C2_drain_sorted_permutation 8
              [Push 1 9; Push 2 255; Push 3 0; Push 4 9; Push 5 128]
              eq_refl eq_refl)
    as (out & h & out' & h' & Hrun & Hd & _).
  exists h, h'. vm_compute in Hrun. injection Hrun as Ho Hh. subst out h.
  split; [reflexivity|]. vm_compute in Hd. injection Hd as Ho Hh. subst out' h'.
  reflexivity.
Defined.

(** ** The buckets of a reachable state *)

(** C4.  After a sequence of calls on a new heap that respects the
    preconditions, the nodes in the buckets are the nodes pushed and not yet
    popped, each once; a node is in one bucket only, and the index of that
    bucket is [msbSet(priority ^ m_minimum)]: 0 for a priority equal to the
    minimum, and otherwise the position, counted from 1, of the highest bit
    at which the priority differs from the minimum. *)
Theorem C4_bucket_of_node {V : Type} (BITS : nat) (ops : list (op V)) :
  respects BITS ops (new BITS) = true ->
  exists out h,
    run BITS ops (new BITS) = Some (out, h) /\
    pushed ops ≡ₚ out ++ nodes h /\
    length (m_buckets h) = (BITS + 1)%nat /\
    (forall (i : nat) (bucket : Bucket V) (node : RadixHeapNode V),
       m_buckets h !! i = Some bucket -> node ∈ bucket ->
       i = msbSet (Z.lxor (priority node) (m_minimum h)) /\
       (i = 0%nat <-> priority node = m_minimum h) /\
       (i <> 0%nat ->
        Z.testbit (priority node) (Z.of_nat i - 1) <>
        Z.testbit (m_minimum h) (Z.of_nat i - 1)) /\
       (forall k : Z, Z.of_nat i <= k ->
          Z.testbit (priority node) k = Z.testbit (m_minimum h) k)) /\
    (forall node : RadixHeapNode V, node ∈ nodes h ->
       exists (i : nat) (bucket : Bucket V),
         m_buckets h !! i = Some bucket /\ node ∈ bucket /\
         forall (j : nat) (bucket' : Bucket V),
           m_buckets h !! j = Some bucket' -> node ∈ bucket' -> j = i).
Proof.
  intros Hres.
  destruct (run_new BITS ops Hres) as (out & h & Hrun & [Hs Hsz] & Hperm & _).
  destruct Hs as [Hlen Hmin _ Hpl _].
  assert (Hidx : forall (i : nat) (bucket : Bucket V) (node : RadixHeapNode V),
             m_buckets h !! i = Some bucket -> node ∈ bucket ->
             placed BITS (m_minimum h) i node).
  { intros i bucket node Hi Hin. specialize (Hpl i bucket Hi).
    rewrite Forall_forall in Hpl. by apply Hpl. }
  exists out, h. split_and!; try done.
  - intros i bucket node Hi Hin.
    destruct (Hidx i bucket node Hi Hin) as (HpP%is_P_iff & Hle & Hmsb).
    apply is_P_iff in Hmin.
    destruct (msbSet_lxor_bits (priority node) (m_minimum h)) as [Hbit Habove];
      [lia|lia|].
    rewrite Hmsb in Hbit, Habove. split_and!; try done.
    rewrite <- Hmsb. apply msbSet_lxor_0_iff; lia.
  - intros node (i & bucket & Hi & Hin)%elem_of_concat_lookup.
    exists i, bucket. split_and!; try done.
    intros j bucket' Hj Hin'.
    destruct (Hidx i bucket node Hi Hin) as (_ & _ & <-).
    by destruct (Hidx j bucket' node Hj Hin') as (_ & _ & <-).
Qed.

Lemma C4_bucket_of_node_witness :
  exists out h,
    run 8 [Push 1 5; Push 2 2; Push 3 8; Pop; Push 4 6; Push 5 2] (new 8)
      = Some (out, h) /\
    m_minimum h = 2 /\
    m_buckets h
      = [[Node 5 2]; []; []; [Node 4 6; Node 1 5]; [Node 3 8]; []; []; [];
         []] /\
    msbSet (Z.lxor 6 2) = 3%nat /\ msbSet (Z.lxor 8 2) = 4%nat.
Proof.
  destruct (C4_bucket_of_node 8
              [Push 1 5; Push 2 2; Push 3 8; Pop; Push 4 6; Push 5 2] eq_refl)
    as (out & h & Hrun & _).
  exists out, h. split; [exact Hrun|].
  vm_compute in Hrun. injection Hrun as Ho Hh. subst out h.
  split_and!; reflexivity.
Defined.

(** C5.  In a reachable state, for every [i] from 1 to [BITS], bit
    [BITS - i] of [m_bucketMask] is set iff bucket [i] has a node.  Hence in
    a call of [pop] that respects the precondition and finds bucket 0 empty,
    [ind = BITS + 1 - msbSet(m_bucketMask)] is the index of the lowest
    bucket with a node, its bit is the highest set bit of the mask, and with
    that bucket detached and that bit cleared the mask describes the
    buckets again. *)
Theorem C5_bucket_mask {V : Type} (BITS : nat) (h : RadixHeap V) :
  reachable BITS h ->
  (forall i : nat, (1 <= i <= BITS)%nat ->
     exists bucket : Bucket V,
       m_buckets h !! i = Some bucket /\
       (Z.testbit (m_bucketMask h) (Z.of_nat (BITS - i)) = true <->
        bucket <> [])) /\
  (m_buckets h !! 0%nat = Some [] -> empty h = false ->
   let ind := (BITS + 1 - msbSet (m_bucketMask h))%nat in
   let mask' := to_P BITS (Z.lxor (m_bucketMask h)
                             (Z.shiftl 1 (Z.of_nat (BITS - ind)))) in
   (1 <= ind <= BITS)%nat /\
   Z.of_nat (BITS - ind) = Z.of_nat (msbSet (m_bucketMask h)) - 1 /\
   (exists first rest, m_buckets h !! ind = Some (first :: rest)) /\
   (forall (j : nat) (bucket : Bucket V),
      (j < ind)%nat -> m_buckets h !! j = Some bucket -> bucket = []) /\
   Z.testbit mask' (Z.of_nat (BITS - ind)) = false /\
   (forall j : nat, (1 <= j <= BITS)%nat -> j <> ind ->
      Z.testbit mask' (Z.of_nat (BITS - j)) =
      Z.testbit (m_bucketMask h) (Z.of_nat (BITS - j))) /\
   mask_ok BITS mask' (<[ind := []]> (m_buckets h))).
Proof.
  intros Hinv%reachable_Inv. pose proof (inv_shape _ _ _ Hinv) as Hs. split.
  - intros i Hi.
    destruct (lookup_lt_is_Some_2 (m_buckets h) i) as [bucket Hb].
    { rewrite (shape_length _ _ _ Hs). lia. }
    exists bucket. split; [done|]. apply (shape_mask _ _ _ Hs i bucket); [lia|done].
  - intros H0 He ind mask'.
    pose proof (not_empty_nodes BITS h Hinv He) as Hne.
    destruct (lowest_bucket BITS h Hs H0 Hne) as (Hind & Hk & Hbit & (first & rest & Hb) & Hlow).
    fold ind in Hind, Hk, Hbit, Hb, Hlow.
    assert (Hin : first ∈ first :: rest) by left.
    pose proof (drained_Shape BITS h ind _ first Hs Hind Hbit Hb Hlow Hin) as Hd.
    apply shape_mask in Hd. unfold drained in Hd; simpl in Hd.
    replace (ind =? 0)%nat with false in Hd by (symmetry; apply Nat.eqb_neq; lia).
    split_and!; try done; try lia; [by eauto| |].
    + subst mask'.
      rewrite to_P_testbit, Z.lxor_spec, bit_of_bucket, Hbit by lia.
      by rewrite bool_decide_eq_true_2.
    + intros j Hj Hne'. subst mask'.
      rewrite to_P_testbit, Z.lxor_spec, bit_of_bucket by lia.
      by rewrite bool_decide_eq_false_2, xorb_false_r.
Qed.

Lemma C5_bucket_mask_witness :
  reachable 8
    (Heap 3 2 (2 ^ 5 + 2 ^ 4)
       [[]; []; []; [Node 4 6; Node 1 5]; [Node 3 8]; []; []; []; []]) /\
  (8 + 1 - msbSet (2 ^ 5 + 2 ^ 4))%nat = 3%nat /\
  mask_ok 8 (2 ^ 4)
    [[]; []; []; []; [Node 3 8]; []; []; []; ([] : Bucket Z)].
Proof.
  assert (Hr : reachable 8
                 (Heap 3 2 (2 ^ 5 + 2 ^ 4)
                    [[]; []; []; [Node 4 6; Node 1 5]; [Node 3 8]; []; [];
                     []; []])).
  { exists [Push 1 5; Push 2 2; Push 3 8; Pop; Push 4 6], [Node 2 2].
    split; reflexivity. }
  split; [exact Hr|]. split; [reflexivity|].
  destruct (C5_bucket_mask 8 _ Hr) as [_ Hpop].
  destruct (Hpop eq_refl eq_refl) as (_ & _ & _ & _ & _ & _ & Hmask).
  exact Hmask.
Defined.

(** ** Redistribution *)

(** C3.  In a call of [pop] on a reachable state that respects the
    precondition and finds bucket 0 empty, the bucket [ind] that is drained
    has an index from 1 to [BITS]; [m_minimum] becomes the least priority in
    it, and every other node of the bucket is inserted again, by the rule of
    [insert] against the new minimum, into a bucket of an index below
    [ind]. *)
Theorem C3_redistribution_lowers_index {V : Type} (BITS : nat)
    (h : RadixHeap V) :
  reachable BITS h ->
  m_buckets h !! 0%nat = Some [] -> empty h = false ->
  let ind := (BITS + 1 - msbSet (m_bucketMask h))%nat in
  exists (first : RadixHeapNode V) (rest : Bucket V),
    m_buckets h !! ind = Some (first :: rest) /\
    let min := scan_min (first :: rest) 0 (0%nat, first) in
    let remaining := delete (fst min) (first :: rest) in
    let h' := redistribute BITS remaining (drained BITS h ind (snd min)) in
    pop_node BITS h = Some (snd min, h') /\
    (0 < ind <= BITS)%nat /\
    first :: rest ≡ₚ snd min :: remaining /\
    m_minimum h' = priority (snd min) /\
    m_buckets h' !! ind = Some [] /\
    forall node : RadixHeapNode V, node ∈ remaining ->
      let j := msbSet (Z.lxor (priority node) (m_minimum h')) in
      (j < ind)%nat /\
      exists bucket : Bucket V, m_buckets h' !! j = Some bucket /\ node ∈ bucket.
Proof.
  intros Hinv%reachable_Inv H0 He ind.
  pose proof (inv_shape _ _ _ Hinv) as Hs.
  pose proof (not_empty_nodes BITS h Hinv He) as Hne.
  destruct (lowest_bucket BITS h Hs H0 Hne) as (Hind & Hk & Hbit & (first & rest & Hb) & Hlow).
  fold ind in Hind, Hk, Hbit, Hb, Hlow.
  exists first, rest. split; [exact Hb|]. intros min remaining h'.
  destruct (scan_min_bucket first rest) as [Hat Hleast]. fold min in Hat, Hleast.
  assert (Hperm : first :: rest ≡ₚ snd min :: remaining)
    by apply (delete_Permutation _ _ _ Hat).
  assert (Hin : snd min ∈ first :: rest) by (apply list_elem_of_lookup; eauto).
  pose proof (drained_Shape BITS h ind _ (snd min) Hs Hind Hbit Hb Hlow Hin) as Hd.
  pose proof (shape_placed _ _ _ Hs ind _ Hb) as Hpl. rewrite Forall_forall in Hpl.
  assert (Hrem : forall node, node ∈ remaining -> node ∈ first :: rest).
  { intros node Hn. rewrite Hperm. by right. }
  destruct (redistribute_Shape BITS remaining (drained BITS h ind (snd min)) Hd)
    as [Hs' Hnodes].
  { apply Forall_forall. intros x Hx. split; [by apply Hpl, Hrem|].
    simpl. rewrite Forall_forall in Hleast. by apply Hleast, Hrem. }
  fold h' in Hs', Hnodes.
  assert (Hm' : m_minimum h' = priority (snd min))
    by (subst h'; by rewrite redistribute_m_minimum).
  pose proof (proj1 (is_P_iff BITS _) (shape_minimum _ _ _ Hs)) as HmP.
  assert (Hlower : forall node, node ∈ remaining ->
            (msbSet (Z.lxor (priority node) (m_minimum h')) < ind)%nat).
  { intros node Hn. rewrite Hm'.
    destruct (Hpl node (Hrem node Hn)) as (HnP%is_P_iff & _ & Hni).
    destruct (Hpl (snd min) Hin) as (HminP%is_P_iff & _ & Hmi).
    apply (msbSet_lxor_same_bucket _ _ (m_minimum h)); try done; lia. }
  split; [by apply pop_node_slow|]. split; [lia|]. split; [done|].
  split; [done|]. split.
  - destruct (lookup_lt_is_Some_2 (m_buckets h') ind) as [b Hb'].
    { rewrite (shape_length _ _ _ Hs'). lia. }
    destruct b as [|x b]; [done|]. exfalso.
    pose proof (shape_placed _ _ _ Hs' ind _ Hb') as Hx.
    apply Forall_cons in Hx as [(_ & _ & Hxi) _].
    assert (Hxin : x ∈ nodes h') by (apply elem_of_concat_lookup; exists ind, (x :: b); split; [done|left]).
    rewrite Hnodes in Hxin. apply elem_of_app in Hxin as [Hx|Hx].
    + specialize (Hlower x Hx). lia.
    + apply elem_of_concat_lookup in Hx as (j & b' & Hj & Hxb).
      pose proof (shape_placed _ _ _ Hd j _ Hj) as Hpj. rewrite Forall_forall in Hpj.
      destruct (Hpj x Hxb) as (_ & _ & Hxj). simpl in Hxj.
      rewrite Hm' in Hxi. assert (Hji : j = ind) by congruence.
      unfold drained in Hj; simpl in Hj. rewrite Hji in Hj.
      rewrite list_lookup_insert_eq in Hj by (rewrite (shape_length _ _ _ Hs); lia).
      injection Hj as <-. by apply not_elem_of_nil in Hxb.
  - intros node Hn j. split; [by apply Hlower|].
    assert (Hnin : node ∈ nodes h') by (rewrite Hnodes; apply elem_of_app; by left).
    apply elem_of_concat_lookup in Hnin as (j' & bucket & Hj' & Hnb).
    pose proof (shape_placed _ _ _ Hs' j' _ Hj') as Hpj. rewrite Forall_forall in Hpj.
    destruct (Hpj node Hnb) as (_ & _ & Hnj). exists bucket. subst j. by rewrite Hnj.
Qed.

Lemma C3_redistribution_lowers_index_witness :
  (8 + 1 - msbSet (2 ^ 5 + 2 ^ 4))%nat = 3%nat /\
  pop_node 8
    (Heap 3 2 (2 ^ 5 + 2 ^ 4)
       [[]; []; []; [Node 4 6; Node 1 5]; [Node 3 8]; []; []; []; []])
  = Some (Node 1 5,
          Heap 2 5 (2 ^ 6 + 2 ^ 4)
            [[]; []; [Node 4 6]; []; [Node 3 8]; []; []; []; []]).
Proof.
  split; [reflexivity|].
  assert (Hr : reachable 8
                 (Heap 3 2 (2 ^ 5 + 2 ^ 4)
                    [[]; []; []; [Node 4 6; Node 1 5]; [Node 3 8]; []; [];
                     []; []])).
  { exists [Push 1 5; Push 2 2; Push 3 8; Pop; Push 4 6], [Node 2 2].
    split; reflexivity. }
  destruct (C3_redistribution_lowers_index 8 _ Hr eq_refl eq_refl)
    as (first & rest & Hb & Hpop & _).
  vm_compute in Hb. injection Hb as <- <-. exact Hpop.
Defined.

(** * Further properties of the heap *)

Section MoreHeapFacts.

Context {V : Type}.
Variable BITS : nat.
Implicit Types (h : RadixHeap V) (ops : list (op V)) (node : RadixHeapNode V).

Lemma respects_app_intro ops1 ops2 h out1 h1 :
  respects BITS ops1 h = true ->
  run BITS ops1 h = Some (out1, h1) ->
  respects BITS ops2 h1 = true ->
  respects BITS (ops1 ++ ops2) h = true.
Proof.
  revert h out1. induction ops1 as [|[v p|] ops1 IH]; intros h out1; simpl.
  - by intros _ [= _ <-].
  - intros [Hpre Hres]%andb_true_iff Hrun H2. rewrite Hpre. simpl. by eapply IH.
  - intros [Hpre Hres]%andb_true_iff. rewrite Hpre. simpl.
    destruct (pop_node BITS h) as [[min h']|]; [|done].
    destruct (run BITS ops1 h') as [[o h'']|] eqn:Hrun; [|done].
    intros [= _ <-] H2. by eapply IH.
Qed.

Lemma reachable_new : reachable BITS (@new V BITS).
Proof. by exists [], []. Qed.

Lemma reachable_push h (v : V) (p : Z) :
  reachable BITS h -> precondition BITS (Push v p) h = true ->
  reachable BITS (snd (push BITS v p h)).
Proof.
  intros (ops & out & Hres & Hrun) Hpre.
  exists (ops ++ [Push v p]), out. split.
  - apply (respects_app_intro ops [Push v p] _ out h); [done|done|].
    cbn [respects]. by rewrite Hpre.
  - rewrite run_app, Hrun. simpl. by rewrite app_nil_r.
Qed.

Lemma reachable_pop h node h' :
  reachable BITS h -> empty h = false -> pop_node BITS h = Some (node, h') ->
  reachable BITS h'.
Proof.
  intros (ops & out & Hres & Hrun) He Hpop.
  exists (ops ++ [Pop]), (out ++ [node]). split.
  - apply (respects_app_intro ops [Pop] _ out h); [done|done|].
    cbn [respects precondition]. rewrite He, Hpop. done.
  - rewrite run_app, Hrun. simpl. by rewrite Hpop.
Qed.

Lemma reachable_placed h (i : nat) (bucket : Bucket V) node :
  reachable BITS h -> m_buckets h !! i = Some bucket -> node ∈ bucket ->
  0 <= priority node < 2 ^ Z.of_nat BITS /\
  0 <= m_minimum h < 2 ^ Z.of_nat BITS /\
  m_minimum h <= priority node /\
  msbSet (Z.lxor (priority node) (m_minimum h)) = i.
Proof.
  intros Hinv%reachable_Inv Hi Hin.
  pose proof (inv_shape _ _ _ Hinv) as Hs.
  pose proof (shape_placed _ _ _ Hs i bucket Hi) as Hpl.
  rewrite Forall_forall in Hpl. destruct (Hpl node Hin) as (HP%is_P_iff & Hle & Hmsb).
  pose proof (proj1 (is_P_iff BITS _) (shape_minimum _ _ _ Hs)). done.
Qed.

End MoreHeapFacts.

(** X1.  [pop] on a reachable heap that is not empty returns the value of a
    node of the heap whose priority is the least of all nodes in the heap;
    the other nodes, each once, stay in the heap, and the state after the
    call is reachable. *)
Theorem X1_pop_returns_least {V : Type} (BITS : nat) (h : RadixHeap V) :
  reachable BITS h -> empty h = false ->
  exists (min : RadixHeapNode V) (h' : RadixHeap V),
    pop BITS h = Some (value min, h') /\
    pop_node BITS h = Some (min, h') /\
    min ∈ nodes h /\
    nodes h ≡ₚ min :: nodes h' /\
    (forall node, node ∈ nodes h -> priority min <= priority node) /\
    reachable BITS h'.
Proof.
  intros Hr He. pose proof (reachable_Inv BITS h Hr) as Hinv.
  destruct (pop_node_Inv BITS h Hinv He) as (min & h' & Hpop & Hinv' & Hperm & _ & Hm & _).
  pose proof (reachable_pop BITS h min h' Hr He Hpop) as Hr'.
  exists min, h'. split_and!; try done.
  - unfold pop. by rewrite Hpop.
  - rewrite Hperm. by left.
  - intros node Hin. rewrite Hperm in Hin. apply elem_of_cons in Hin as [->|Hin]; [lia|].
    apply elem_of_concat_lookup in Hin as (i & bucket & Hi & Hin).
    destruct (reachable_placed BITS h' i bucket node Hr' Hi Hin) as (_ & _ & Hle & _).
    lia.
Qed.

Lemma X1_pop_returns_least_witness :
  pop 8 (Heap 3 2 (2 ^ 5 + 2 ^ 4)
           [[]; []; []; [Node 4 6; Node 1 5]; [Node 3 8]; []; []; []; []])
  = Some (1, Heap 2 5 (2 ^ 6 + 2 ^ 4)
               [[]; []; [Node 4 6]; []; [Node 3 8]; []; []; []; []]).
Proof.
  assert (Hr : reachable 8
                 (Heap 3 2 (2 ^ 5 + 2 ^ 4)
                    [[]; []; []; [Node 4 6; Node 1 5]; [Node 3 8]; []; [];
                     []; []])).
  { exists [Push 1 5; Push 2 2; Push 3 8; Pop; Push 4 6], [Node 2 2].
    split; reflexivity. }
  destruct (X1_pop_returns_least 8 _ Hr eq_refl) as (min & h' & Hpop & Hpn & _).
  vm_compute in Hpn. injection Hpn as Hm Hh. subst min h'. exact Hpop.
Defined.

Lemma example_heap_reachable : reachable 8 example_heap.
Proof.
  exists [Push 1 5; Push 2 2; Push 3 8; Pop; Push 4 6], [Node 2 2].
  split; reflexivity.
Qed.

(** X2.  In a reachable state every node of the heap has a priority of type
    [P] that is not below [m_minimum]. *)
Theorem X2_priorities_not_below_minimum {V : Type} (BITS : nat)
    (h : RadixHeap V) (node : RadixHeapNode V) :
  reachable BITS h -> node ∈ nodes h ->
  m_minimum h <= priority node < 2 ^ Z.of_nat BITS /\ 0 <= m_minimum h.
Proof.
  intros Hr (i & bucket & Hi & Hin)%elem_of_concat_lookup.
  destruct (reachable_placed BITS h i bucket node Hr Hi Hin) as (? & ? & ? & _).
  lia.
Qed.

Lemma X2_priorities_not_below_minimum_witness :
  m_minimum example_heap <= priority (Node 3 8) < 2 ^ Z.of_nat 8 /\
  0 <= m_minimum example_heap.
Proof.
  apply (X2_priorities_not_below_minimum 8 example_heap (Node 3 8)).
  - exact example_heap_reachable.
  - vm_compute. right. right. left.
Defined.

(** X3.  The buckets of a reachable state are ordered: a node in a bucket of
    a lower index has a strictly smaller priority than a node in a bucket of
    a higher index. *)
Theorem X3_buckets_ordered {V : Type} (BITS : nat) (h : RadixHeap V)
    (i j : nat) (bi bj : Bucket V) (a b : RadixHeapNode V) :
  reachable BITS h ->
  (i < j)%nat ->
  m_buckets h !! i = Some bi -> m_buckets h !! j = Some bj ->
  a ∈ bi -> b ∈ bj ->
  priority a < priority b.
Proof.
  intros Hr Hij Hi Hj Ha Hb.
  destruct (reachable_placed BITS h i bi a Hr Hi Ha) as (HaP & HmP & _ & Hai).
  destruct (reachable_placed BITS h j bj b Hr Hj Hb) as (HbP & _ & Hle & Hbj).
  apply (msbSet_lxor_higher_bucket_lt (priority b) (m_minimum h) (priority a) i j);
    try done; lia.
Qed.

Lemma X3_buckets_ordered_witness : priority (Node 4 6) < priority (Node 3 8).
Proof.
  apply (X3_buckets_ordered 8 example_heap 3 4
           [Node 4 6; Node 1 5] [Node 3 8] (Node 4 6) (Node 3 8)).
  - exact example_heap_reachable.
  - lia.
  - reflexivity.
  - reflexivity.
  - left.
  - left.
Defined.

(** ** A heap without nodes *)

Section NoNodes.

Context {V : Type}.
Variable BITS : nat.
Implicit Types (h : RadixHeap V).

Lemma concat_nil_Forall {A : Type} (bs : list (list A)) :
  concat bs = [] -> Forall (eq []) bs.
Proof.
  induction bs as [|b bs IH]; simpl; [constructor|].
  intros [-> Hbs]%app_eq_nil. constructor; [done|by apply IH].
Qed.

Lemma no_nodes_state h :
  Shape BITS h -> nodes h = [] ->
  m_bucketMask h = 0 /\ m_buckets h = replicate (BITS + 1) [].
Proof.
  intros [Hlen _ HmP _ Hmask] Hn.
  assert (Hb : m_buckets h = replicate (BITS + 1) []).
  { symmetry. apply replicate_as_Forall. split; [done|by apply concat_nil_Forall]. }
  split; [|done]. apply is_P_iff in HmP.
  apply Z.bits_inj'. intros k Hk. rewrite Z.bits_0.
  destruct (Z.lt_ge_cases k (Z.of_nat BITS)) as [Hlt|Hge].
  - destruct (Z.testbit (m_bucketMask h) k) eqn:Hbit; [|done]. exfalso.
    assert (Hi : m_buckets h !! (BITS - Z.to_nat k)%nat = Some []).
    { rewrite Hb. apply lookup_replicate_2. lia. }
    apply (Hmask (BITS - Z.to_nat k)%nat [] ltac:(lia) Hi); [|done].
    replace (Z.of_nat (BITS - (BITS - Z.to_nat k))) with k by lia. done.
  - destruct (Z.eq_dec (m_bucketMask h) 0) as [->|Hne]; [apply Z.bits_0|].
    apply Z.bits_above_log2; [lia|].
    apply Z.log2_lt_pow2; [lia|]. 
    apply Z.lt_le_trans with (2 ^ Z.of_nat BITS); [lia|].
    apply Z.pow_le_mono_r; lia.
Qed.

Lemma alter_cons_replicate (x : RadixHeapNode V) (n i : nat) (b : Bucket V) :
  <[i := b]> (alter (cons x) i (replicate n [])) = <[i := b]> (replicate n []).
Proof.
  revert i. induction n as [|n IH]; intros [|i]; simpl; try done.
  f_equal. apply IH.
Qed.

Lemma insert_nil_replicate {A : Type} (n i : nat) :
  <[i := []]> (replicate n ([] : list A)) = replicate n [].
Proof.
  revert i. induction n as [|n IH]; intros [|i]; simpl; try done.
  f_equal. apply IH.
Qed.

Lemma msbSet_pow2 (k : nat) : msbSet (2 ^ Z.of_nat k) = S k.
Proof.
  assert (H2 : 0 < 2 ^ Z.of_nat k) by (apply Z.pow_pos_nonneg; lia).
  pose proof (msbSet_pos _ H2) as Hm. rewrite Z.log2_pow2 in Hm by lia. lia.
Qed.

(** [push] and then [pop] on a heap whose buckets are all empty. *)
Lemma push_pop_no_nodes (s m p : Z) (v : V) :
  is_P BITS m = true -> is_P BITS p = true ->
  pop BITS (snd (push BITS v p (Heap s m 0 (replicate (BITS + 1) [])))) =
    Some (v, Heap (size_t (size_t (s + 1) - 1)) p 0 (replicate (BITS + 1) [])).
Proof.
  intros Hm%is_P_iff Hp%is_P_iff.
  pose proof (msbSet_lxor_bound p m BITS Hp Hm) as Hind.
  unfold push, insert; cbn [snd m_size m_minimum m_bucketMask m_buckets priority].
  set (node := Node v p).
  set (ind := msbSet (Z.lxor p m)) in *.
  destruct (Nat.eqb_spec ind 0) as [H0|H0].
  - assert (p = m) by (apply msbSet_lxor_0_iff; [lia|lia|done]). subst m.
    rewrite H0. unfold pop.
    erewrite pop_node_fast.
    2:{ cbn [m_buckets]. rewrite list_lookup_alter_eq, lookup_replicate_2 by lia. done. }
    cbn [value node m_size m_minimum m_bucketMask m_buckets].
    by rewrite alter_cons_replicate, insert_nil_replicate.
  - assert (Hmask : to_P BITS (Z.lor 0 (Z.shiftl 1 (Z.of_nat (BITS - ind))))
                    = 2 ^ Z.of_nat (BITS - ind)).
    { rewrite Z.lor_0_l, Z.shiftl_1_l. apply Z.mod_small. split.
      - apply Z.pow_nonneg. lia.
      - apply Z.pow_lt_mono_r; lia. }
    rewrite Hmask. unfold pop.
    erewrite (pop_node_slow BITS _ node []).
    + cbn [snd fst scan_min]. rewrite Z.ltb_irrefl. cbn [snd fst delete].
      unfold redistribute, drained, list_delete;
        cbn [fold_left value node m_size m_minimum m_bucketMask m_buckets priority].
      rewrite msbSet_pow2.
      replace (BITS + 1 - S (BITS - ind))%nat with ind by lia.
      destruct (Nat.eqb_spec ind 0) as [|_]; [done|].
      rewrite Z.shiftl_1_l, Z.lxor_nilpotent.
      rewrite alter_cons_replicate, insert_nil_replicate.
      unfold to_P. by rewrite Z.mod_0_l by (apply Z.pow_nonzero; lia).
    + cbn [m_buckets]. rewrite list_lookup_alter_ne, lookup_replicate_2 by lia. done.
    + cbn [m_buckets m_bucketMask]. rewrite msbSet_pow2.
      replace (BITS + 1 - S (BITS - ind))%nat with ind by lia.
      rewrite list_lookup_alter_eq, lookup_replicate_2 by lia. done.
Qed.

End NoNodes.

Lemma reachable_no_nodes {V : Type} (BITS : nat) (h : RadixHeap V) :
  reachable BITS h -> nodes h = [] ->
  h = Heap 0 (m_minimum h) 0 (replicate (BITS + 1) []).
Proof.
  intros [Hs Hsz]%reachable_Inv Hn.
  destruct (no_nodes_state BITS h Hs Hn) as [Hmask Hb].
  rewrite Hn in Hsz. change (size_t (Z.of_nat (length [])))%Z with 0 in Hsz.
  destruct h as [sz m mask bs]; simpl in *. by subst.
Qed.

(** X4.  A reachable state without nodes is the state of a new heap, except
    for [m_minimum], which [pop] never resets: [m_size] is 0, the mask is 0
    and all [BITS + 1] buckets are empty. *)
Theorem X4_no_nodes_is_new {V : Type} (BITS : nat) (h : RadixHeap V) :
  reachable BITS h -> nodes h = [] ->
  h = Heap 0 (m_minimum h) 0 (replicate (BITS + 1) []) /\
  (m_minimum h = 0 -> h = new BITS) /\
  empty h = true.
Proof.
  intros Hr Hn. pose proof (reachable_no_nodes BITS h Hr Hn) as Heq.
  split; [exact Heq|]. split.
  - intros H0. rewrite Heq, H0. reflexivity.
  - by rewrite Heq.
Qed.

Lemma X4_no_nodes_is_new_witness :
  Heap 0 5 0 [[]; []; []; []; []; []; []; []; ([] : Bucket Z)] =
  Heap 0 5 0 (replicate (8 + 1) []).
Proof.
  apply (X4_no_nodes_is_new 8 (Heap 0 5 0 [[]; []; []; []; []; []; []; []; []])).
  - by exists [Push 1 5; Push 2 2; Pop; Pop], [Node 2 2; Node 1 5].
  - reflexivity.
Defined.

(** X5.  On a reachable heap without nodes, [push(v, p)] and then [pop()]
    returns [v] for every priority [p] of type [P], whether or not [p] is
    below the minimum ([push] does not check its precondition), and leaves
    a heap without nodes whose [m_minimum] is [p]. *)
Theorem X5_push_pop_single {V : Type} (BITS : nat) (h : RadixHeap V)
    (v : V) (p : Z) :
  reachable BITS h -> nodes h = [] ->
  0 <= p < 2 ^ Z.of_nat BITS ->
  pop BITS (snd (push BITS v p h)) =
    Some (v, Heap 0 p 0 (replicate (BITS + 1) [])).
Proof.
  intros Hr Hn Hp%is_P_iff.
  pose proof (reachable_no_nodes BITS h Hr Hn) as Heq.
  pose proof (shape_minimum _ _ _ (inv_shape _ _ _ (reachable_Inv BITS h Hr))) as Hm.
  rewrite Heq. rewrite (push_pop_no_nodes BITS 0 (m_minimum h) p v Hm Hp).
  reflexivity.
Qed.

Lemma X5_push_pop_single_witness :
  pop 8 (snd (push 8 7 3 (Heap 0 5 0 [[]; []; []; []; []; []; []; []; []]))) =
    Some (7, Heap 0 3 0 [[]; []; []; []; []; []; []; []; []]).
Proof.
  apply (X5_push_pop_single 8 (Heap 0 5 0 [[]; []; []; []; []; []; []; []; []]) 7 3).
  - by exists [Push 1 5; Push 2 2; Pop; Pop], [Node 2 2; Node 1 5].
  - reflexivity.
  - lia.
Defined.

(** X6.  On a reachable heap without nodes, [pop] reads [m_buckets] at the
    index [BITS + 1], one past the end of the array: undefined behaviour. *)
Theorem X6_pop_no_nodes_undefined {V : Type} (BITS : nat) (h : RadixHeap V) :
  reachable BITS h -> nodes h = [] ->
  m_buckets h !! 0%nat = Some [] /\
  (BITS + 1 - msbSet (m_bucketMask h))%nat = length (m_buckets h) /\
  m_buckets h !! (BITS + 1 - msbSet (m_bucketMask h))%nat = None /\
  pop BITS h = None.
Proof.
  intros Hr Hn. pose proof (reachable_no_nodes BITS h Hr Hn) as Heq.
  rewrite Heq. cbn [m_buckets m_bucketMask]. rewrite msbSet_0, Nat.sub_0_r.
  assert (H0 : replicate (BITS + 1) ([] : Bucket V) !! 0%nat = Some [])
    by (apply lookup_replicate_2; lia).
  assert (HN : replicate (BITS + 1) ([] : Bucket V) !! (BITS + 1)%nat = None)
    by (apply lookup_replicate_None; lia).
  split_and!; try done.
  - by rewrite length_replicate.
  - unfold pop, pop_node. cbn [m_buckets m_bucketMask].
    by rewrite H0, msbSet_0, Nat.sub_0_r, HN.
Qed.

Lemma X6_pop_no_nodes_undefined_witness :
  pop 8 (@new Z 8) = None.
Proof.
  apply (X6_pop_no_nodes_undefined 8 (new 8)).
  - apply reachable_new.
  - reflexivity.
Defined.

(** ** The node that [pop] selects *)

Lemma scan_min_first {V : Type} (l it : Bucket V) (pos : nat)
    (min : nat * RadixHeapNode V) :
  (forall k : nat, it !! k = l !! (pos + k)%nat) ->
  l !! fst min = Some (snd min) ->
  (fst min <= pos)%nat ->
  (forall (k : nat) node, (k < fst min)%nat -> l !! k = Some node ->
     priority (snd min) < priority node) ->
  (forall (k : nat) node, (fst min <= k < pos)%nat -> l !! k = Some node ->
     priority (snd min) <= priority node) ->
  let r := scan_min it pos min in
  l !! fst r = Some (snd r) /\
  (forall (k : nat) node, (k < fst r)%nat -> l !! k = Some node ->
     priority (snd r) < priority node) /\
  (forall (k : nat) node, l !! k = Some node ->
     priority (snd r) <= priority node).
Proof.
  revert pos min. induction it as [|n it IH]; intros pos min Hit Hmin Hpos Hlt Hle.
  - simpl. split; [done|]. split; [done|]. intros k node Hk.
    assert (k < pos)%nat.
    { specialize (Hit 0%nat). simpl in Hit. symmetry in Hit.
      apply lookup_ge_None in Hit. apply lookup_lt_Some in Hk. lia. }
    destruct (Nat.lt_ge_cases k (fst min)) as [Hs|Hs].
    + apply Z.lt_le_incl. by apply (Hlt k).
    + apply (Hle k); [lia|done].
  - simpl.
    assert (Hn : l !! pos = Some n).
    { specialize (Hit 0%nat). simpl in Hit. by rewrite Nat.add_0_r in Hit. }
    apply IH.
    + intros k. specialize (Hit (S k)). simpl in Hit.
      by replace (S pos + k)%nat with (pos + S k)%nat by lia.
    + by destruct (Z.ltb_spec (priority n) (priority (snd min))).
    + destruct (Z.ltb_spec (priority n) (priority (snd min))); simpl; lia.
    + destruct (Z.ltb_spec (priority n) (priority (snd min))) as [Hc|Hc]; simpl.
      * intros k node Hk Hkn.
        destruct (Nat.lt_ge_cases k (fst min)) as [Hs|Hs].
        -- specialize (Hlt k node Hs Hkn). lia.
        -- specialize (Hle k node ltac:(lia) Hkn). lia.
      * exact Hlt.
    + destruct (Z.ltb_spec (priority n) (priority (snd min))) as [Hc|Hc]; simpl.
      * intros k node Hk Hkn. assert (k = pos) by lia. subst k.
        rewrite Hn in Hkn. injection Hkn as <-. lia.
      * intros k node Hk Hkn.
        destruct (Nat.eq_dec k pos) as [->|Hne].
        -- rewrite Hn in Hkn. injection Hkn as <-. lia.
        -- apply (Hle k); [lia|done].
Qed.

(** X7.  The scan of [pop] over the bucket it drains selects the node of
    least priority that is nearest to the head: no node has a smaller
    priority, and every node in front of the selected one has a strictly
    greater priority. *)
Theorem X7_scan_selects_first_least {V : Type}
    (first : RadixHeapNode V) (rest : Bucket V) :
  let bucket := first :: rest in
  let min := scan_min bucket 0 (0%nat, first) in
  bucket !! fst min = Some (snd min) /\
  (forall (k : nat) (node : RadixHeapNode V), bucket !! k = Some node ->
     priority (snd min) <= priority node) /\
  (forall (k : nat) (node : RadixHeapNode V),
     (k < fst min)%nat -> bucket !! k = Some node ->
     priority (snd min) < priority node).
Proof.
  intros bucket min.
  destruct (scan_min_first bucket bucket 0 (0%nat, first)) as (H1 & H2 & H3);
    try done; simpl; try lia.
Qed.

(** ** The destructor *)

Lemma delete_bucket_app {V : Type} (it deleted : Bucket V) :
  delete_bucket it deleted = deleted ++ it.
Proof.
  revert deleted. induction it as [|node it IH]; intros deleted; simpl.
  - by rewrite app_nil_r.
  - by rewrite IH, <- (assoc app).
Qed.

Lemma destroy_nodes {V : Type} (h : RadixHeap V) : destroy h = nodes h.
Proof.
  unfold destroy, nodes.
  assert (H : forall (bs : list (Bucket V)) deleted,
             fold_left (fun deleted bucket => delete_bucket bucket deleted) bs deleted
             = deleted ++ concat bs).
  { induction bs as [|b bs IH]; intros deleted; simpl.
    - by rewrite app_nil_r.
    - by rewrite IH, delete_bucket_app, <- (assoc app). }
  apply H.
Qed.



(** ** [m_minimum] *)

Lemma run_minimum_last {V : Type} (BITS : nat) (ops : list (op V))
    (h : RadixHeap V) :
  Inv BITS h -> respects BITS ops h = true ->
  exists out h',
    run BITS ops h = Some (out, h') /\
    m_minimum h' = from_option priority (m_minimum h) (last out).
Proof.
  revert h. induction ops as [|[v p|] ops IH]; intros h Hinv Hres.
  - by exists [], h.
  - simpl in Hres. apply andb_true_iff in Hres as [Hpre Hres].
    destruct (push_Inv BITS h v p Hinv Hpre) as (Hinv1 & _ & Hmin1 & _).
    destruct (IH _ Hinv1 Hres) as (out & h' & Hrun & Hm).
    exists out, h'. split; [exact Hrun|]. by rewrite Hm, Hmin1.
  - simpl in Hres. apply andb_true_iff in Hres as [Hpre Hres].
    apply negb_true_iff in Hpre.
    destruct (pop_node_Inv BITS h Hinv Hpre)
      as (min & h1 & Hpop & Hinv1 & _ & _ & Hmin1 & _).
    rewrite Hpop in Hres.
    destruct (IH _ Hinv1 Hres) as (out & h' & Hrun & Hm).
    exists (min :: out), h'. split; [cbn [run]; by rewrite Hpop, Hrun|].
    rewrite Hm, Hmin1. destruct out as [|n out]; [done|].
    rewrite last_cons_cons. destruct (last (n :: out)) eqn:E; [done|].
    by apply last_None in E.
Qed.

(** X9.  After a sequence of calls on a new heap that respects the
    preconditions, [m_minimum] is the priority of the node that the last
    call of [pop] returned, and 0 when [pop] has not been called. *)
Theorem X9_minimum_is_last_popped {V : Type} (BITS : nat) (ops : list (op V)) :
  respects BITS ops (new BITS) = true ->
  exists out h,
    run BITS ops (new BITS) = Some (out, h) /\
    m_minimum h = match last out with
                  | Some node => priority node
                  | None => 0
                  end.
Proof.
  intros Hres.
  destruct (run_minimum_last BITS ops _ (new_Inv BITS) Hres) as (out & h & Hrun & Hm).
  exists out, h. split; [done|]. rewrite Hm. by destruct (last out).
Qed.

Lemma X9_minimum_is_last_popped_witness :
  exists out h,
    run 8 [Push 1 5; Push 2 2; Push 3 8; Pop; Push 4 6; Pop; Push 5 200]
      (new 8) = Some (out, h) /\
    m_minimum h = 5.
Proof.
  destruct (X9_minimum_is_last_popped 8
              [Push 1 5; Push 2 2; Push 3 8; Pop; Push 4 6; Pop; Push 5 200]
              eq_refl)
    as (out & h & Hrun & Hm).
  exists out, h. split; [exact Hrun|]. rewrite Hm.
  vm_compute in Hrun. injection Hrun as <- _. reflexivity.
Defined.

(** * List-based stacks *)

Section StackFacts.

Context {E : Type}.
Implicit Types (s : Stack.Stack E) (ops : list (Stack.op E)) (xs l : list E).

Lemma stack_size_t_idem (c n : Z) :
  size_t (size_t (c + n) - n) = size_t c.
Proof.
  unfold size_t. rewrite Zminus_mod_idemp_l. f_equal. lia.
Qed.

Lemma clear_nil l : StackPure.clear l = [].
Proof. induction l as [|x l IH]; [done|exact IH]. Qed.

Lemma copy_loop_app (q built : list E) :
  StackPure.copy_loop q built = built ++ q.
Proof.
  revert built. induction q as [|x q IH]; intros built; simpl.
  - by rewrite app_nil_r.
  - by rewrite IH, <- (assoc app).
Qed.

Lemma copy_nil_head (S : list E) : StackPure.copy S [] = S.
Proof. destruct S as [|x S]; [done|]. unfold StackPure.copy. by rewrite copy_loop_app. Qed.

Lemma init_rev (l acc : list E) :
  fold_left (fun m_head x => StackPure.push x m_head) l acc = rev l ++ acc.
Proof.
  revert acc. induction l as [|x l IH]; intros acc; simpl; [done|].
  by rewrite IH, <- (assoc app).
Qed.

Lemma stack_run_app ops1 ops2 s :
  Stack.run (ops1 ++ ops2) s =
    match Stack.run ops1 s with
    | None => None
    | Some (out1, s1) =>
        match Stack.run ops2 s1 with
        | None => None
        | Some (out2, s2) => Some (out1 ++ out2, s2)
        end
    end.
Proof.
  revert s. induction ops1 as [|o ops1 IH]; intros s; simpl.
  - by destruct (Stack.run ops2 s) as [[??]|].
  - destruct (Stack.step o s) as [[r s']|]; [|done]. rewrite IH.
    destruct (Stack.run ops1 s') as [[out1 s1]|]; [|done].
    destruct (Stack.run ops2 s1) as [[out2 s2]|]; [|done].
    by destruct r.
Qed.

Lemma stack_run_pushes (x : E) xs s :
  Stack.run (map Stack.Push (x :: xs)) s =
    Some ([], Stack.Build (rev (x :: xs) ++ Stack.m_head s)
                (size_t (Stack.m_count s + Z.of_nat (length (x :: xs))))).
Proof.
  revert x s. induction xs as [|y xs IH]; intros x s.
  - simpl. unfold Stack.push, StackPure.push. do 3 f_equal.
  - change (map Stack.Push (x :: y :: xs))
      with (Stack.Push x :: map Stack.Push (y :: xs)).
    cbn [Stack.run Stack.step]. rewrite IH.
    cbn [Stack.push Stack.m_head Stack.m_count StackPure.push].
    do 3 f_equal.
    + cbn [rev]. by rewrite <- !(assoc app).
    + unfold size_t. rewrite Zplus_mod_idemp_l. f_equal.
      cbn [length]. lia.
Qed.

Lemma stack_run_pops l (rest : list E) (c : Z) :
  Stack.run (replicate (length l) Stack.Pop) (Stack.Build (l ++ rest) c) =
    Some (l, Stack.Build rest
               (match l with
                | [] => c
                | _ :: _ => size_t (c - Z.of_nat (length l))
                end)).
Proof.
  revert c. induction l as [|x l IH]; intros c; [done|].
  cbn [length replicate Stack.run Stack.step Stack.pop StackPure.pop
         Stack.m_head Stack.m_count app].
  rewrite IH. destruct l as [|y l].
  - reflexivity.
  - do 3 f_equal. unfold size_t. rewrite Zminus_mod_idemp_l. f_equal.
    cbn [length]. lia.
Qed.

Lemma step_counted (o : Stack.op E) s :
  Stack.counted s -> Stack.precondition o s = true ->
  exists r s', Stack.step o s = Some (r, s') /\ Stack.counted s'.
Proof.
  unfold Stack.counted. intros Hc Hpre. destruct s as [head c]; simpl in *.
  destruct o as [x|x| | |]; simpl.
  - eexists _, _. split; [done|]. simpl. rewrite Hc. apply size_t_succ.
  - eexists _, _. split; [done|]. simpl. rewrite Hc. apply size_t_succ.
  - destruct head as [|x head]; [done|].
    eexists _, _. split; [done|]. simpl. rewrite Hc. apply size_t_pred.
  - destruct head as [|x head]; [done|]. eexists _, _. split; [done|]. done.
  - eexists _, _. split; [done|]. simpl. by rewrite clear_nil.
Qed.

Lemma run_counted ops s :
  Stack.counted s -> Stack.respects ops s = true ->
  exists out s', Stack.run ops s = Some (out, s') /\ Stack.counted s'.
Proof.
  revert s. induction ops as [|o ops IH]; intros s Hc Hres.
  - by exists [], s.
  - cbn [Stack.respects] in Hres. apply andb_true_iff in Hres as [Hpre Hres].
    destruct (step_counted o s Hc Hpre) as (r & s' & Hstep & Hc').
    rewrite Hstep in Hres.
    destruct (IH s' Hc' Hres) as (out & s'' & Hrun & Hc'').
    cbn [Stack.run]. rewrite Hstep, Hrun. by eexists _, _.
Qed.

End StackFacts.

(** X10.  A sequence of calls of [push], [emplace], [pop], [top] and
    [clear] on a new [Stack] that calls [pop] and [top] on a stack with an
    element only runs without a null dereference, and afterwards [size()]
    is the number of elements in [std::size_t]; for fewer than [2^64]
    elements it is that number, and [empty()] holds iff [size()] is 0. *)
Theorem X10_stack_size_counts {E : Type} (ops : list (Stack.op E)) :
  Stack.respects ops Stack.new = true ->
  exists out s,
    Stack.run ops Stack.new = Some (out, s) /\
    Stack.size s = size_t (Z.of_nat (length (Stack.m_head s))) /\
    (Z.of_nat (length (Stack.m_head s)) < 2 ^ SIZE_BITS ->
     Stack.size s = Z.of_nat (length (Stack.m_head s)) /\
     (Stack.empty s = true <-> Stack.size s = 0)).
Proof.
  intros Hres.
  destruct (run_counted ops Stack.new) as (out & s & Hrun & Hc); [done|done|].
  exists out, s. split; [done|]. split; [exact Hc|].
  intros Hlt. unfold Stack.size. rewrite Hc, size_t_small by done.
  split; [done|]. unfold Stack.empty.
  destruct (Stack.m_head s); simpl; split; (done || lia).
Qed.

Lemma X10_stack_size_counts_witness :
  exists out s,
    Stack.run [Stack.Push 1; Stack.Emplace 2; Stack.Top; Stack.Pop;
               Stack.Push 3; Stack.Clear; Stack.Push 4; Stack.Push 5]
      Stack.new = Some (out, s) /\
    out = [2; 2] /\ Stack.size s = 2.
Proof.
  destruct (X10_stack_size_counts
              [Stack.Push 1; Stack.Emplace 2; Stack.Top; Stack.Pop;
               Stack.Push 3; Stack.Clear; Stack.Push 4; Stack.Push 5] eq_refl)
    as (out & s & Hrun & _).
  exists out, s. split; [exact Hrun|].
  vm_compute in Hrun. injection Hrun as <- <-. by split.
Defined.

(** X11.  Values pushed on a [Stack] one after the other are returned by as
    many calls of [pop] in the reverse order, and the stack is then as it
    was before. *)
Theorem X11_stack_lifo {E : Type} (xs : list E) (s : Stack.Stack E) :
  0 <= Stack.m_count s < 2 ^ SIZE_BITS ->
  Stack.run (map Stack.Push xs ++ replicate (length xs) Stack.Pop) s =
    Some (rev xs, s).
Proof.
  intros Hc. destruct xs as [|x xs]; [done|].
  rewrite stack_run_app, stack_run_pushes.
  assert (Hl : length (x :: xs) = length (rev (x :: xs))) by (by rewrite length_rev).
  rewrite Hl. set (l := rev (x :: xs)) in *.
  rewrite stack_run_pops.
  destruct l as [|y l]; [done|].
  rewrite stack_size_t_idem.
  unfold size_t. rewrite Z.mod_small by done. by destruct s.
Qed.

Lemma X11_stack_lifo_witness :
  Stack.run (map Stack.Push [1; 2; 3] ++ replicate 3 Stack.Pop)
    (Stack.Build [7; 8] 2) = Some ([3; 2; 1], Stack.Build [7; 8] 2).
Proof.
  apply (X11_stack_lifo [1; 2; 3] (Stack.Build [7; 8] 2)). simpl. split; [lia|reflexivity].
Defined.

Lemma top_rev_last {E : Type} (l : list E) : StackPure.top (rev l) = last l.
Proof.
  induction l as [|x l IH]; [done|]. cbn [rev].
  destruct l as [|y l]; [done|]. rewrite last_cons_cons, <- IH.
  destruct (rev (y :: l)) as [|z r] eqn:Hrev; [|done].
  apply (f_equal (@length E)) in Hrev. rewrite length_rev in Hrev. done.
Qed.

(** X12.  [Stack(initList)] pushes the elements of the list in order: the
    last element of the list is on top, [size()] is the length of the list
    (in [std::size_t]), and calls of [pop] return the list backwards and
    leave the stack empty. *)
Theorem X12_stack_init {E : Type} (initList : list E) :
  Stack.m_head (Stack.init initList) = rev initList /\
  Stack.top (Stack.init initList) = last initList /\
  Stack.size (Stack.init initList) = size_t (Z.of_nat (length initList)) /\
  exists s,
    Stack.run (replicate (length initList) Stack.Pop) (Stack.init initList)
      = Some (rev initList, s) /\
    Stack.m_head s = [] /\ Stack.size s = 0.
Proof.
  assert (Hh : Stack.m_head (Stack.init initList) = rev initList).
  { unfold Stack.init, StackPure.init; simpl. by rewrite init_rev, app_nil_r. }
  split; [exact Hh|]. split; [unfold Stack.top; rewrite Hh; apply top_rev_last|].
  split; [done|].
  unfold Stack.init, StackPure.init. rewrite init_rev, app_nil_r.
  pose proof (stack_run_pops (rev initList) []
                (size_t (Z.of_nat (length initList)))) as Hp.
  rewrite app_nil_r, length_rev in Hp.
  eexists. split; [exact Hp|]. split; [done|].
  unfold Stack.size; simpl.
  destruct (rev initList) eqn:Hrev.
  - apply (f_equal (@length E)) in Hrev. rewrite length_rev in Hrev.
    by rewrite Hrev.
  - unfold size_t. rewrite Zminus_mod_idemp_l, Z.sub_diag. done.
Qed.

Section StackStore.

Context {E : Type}.
Implicit Types (st : gmap nat (Stack.Stack E)) (s t : Stack.Stack E).

Lemma assign_distinct (this S : nat) st t s :
  this <> S -> st !! this = Some t -> st !! S = Some s ->
  Stack.assign this S st = Some (<[this := s]> st).
Proof.
  intros Hne Ht Hs. unfold Stack.assign, Stack.pure_assign.
  simplify_map_eq. rewrite !insert_insert_eq. do 2 f_equal.
  unfold Stack.set_count, Stack.set_head; simpl.
  rewrite clear_nil, copy_nil_head. by destruct s.
Qed.

Lemma assign_self (a : nat) st s :
  st !! a = Some s ->
  Stack.assign a a st = Some (<[a := Stack.Build [] (Stack.m_count s)]> st).
Proof.
  intros Hs. unfold Stack.assign, Stack.pure_assign.
  simplify_map_eq. rewrite !insert_insert_eq. do 2 f_equal.
  unfold Stack.set_count, Stack.set_head; simpl. by rewrite clear_nil.
Qed.

Lemma move_assign_distinct (this S : nat) st t s :
  this <> S -> st !! this = Some t -> st !! S = Some s ->
  Stack.move_assign this S st =
    Some (<[S := Stack.Build [] 0]> (<[this := s]> st)).
Proof.
  intros Hne Ht Hs. unfold Stack.move_assign, Stack.pure_move_assign.
  simplify_map_eq. f_equal.
  apply map_eq. intros k.
  destruct (decide (k = S)) as [->|HkS]; [by simplify_map_eq|].
  destruct (decide (k = this)) as [->|Hkt]; simplify_map_eq; [|done].
  unfold Stack.set_count, Stack.set_head; simpl. by destruct s.
Qed.

Lemma move_assign_self (a : nat) st s :
  st !! a = Some s ->
  Stack.move_assign a a st = Some (<[a := Stack.Build [] 0]> st).
Proof.
  intros Hs. unfold Stack.move_assign, Stack.pure_move_assign.
  simplify_map_eq. by rewrite !insert_insert_eq.
Qed.

End StackStore.

(** X13.  Copying keeps the elements, their order and the count: the copy
    constructor builds a stack equal to its argument, and the assignment of
    a stack [S] to another object [this] makes the state of [this] that of
    [S] and changes nothing else in the store. *)
Theorem X13_stack_copy {E : Type} (this S : nat)
    (st : gmap nat (Stack.Stack E)) (t s : Stack.Stack E) :
  this <> S -> st !! this = Some t -> st !! S = Some s ->
  Stack.assign this S st = Some (<[this := s]> st) /\
  Stack.copy_construct s = s.
Proof.
  intros Hne Ht Hs. split; [by apply (assign_distinct this S st t s)|].
  unfold Stack.copy_construct, StackPure.copy_construct.
  rewrite copy_nil_head. by destruct s.
Qed.

Lemma X13_stack_copy_witness :
  Stack.assign 1 2 {[1%nat := Stack.Build [5; 6; 7] 3; 2%nat := Stack.Build [8; 9] 2]}
  = Some {[1%nat := Stack.Build [8; 9] 2; 2%nat := Stack.Build [8; 9] 2]}.
Proof.
  destruct (X13_stack_copy 1 2
              {[1%nat := Stack.Build [5; 6; 7] 3; 2%nat := Stack.Build [8; 9] 2]}
              (Stack.Build [5; 6; 7] 3) (Stack.Build [8; 9] 2)
              ltac:(done) ltac:(done) ltac:(done))
    as [Ha _].
  exact Ha.
Defined.

(** X14.  The assignment of a stack to itself, [S = S], removes all its
    elements, since [clear()] runs before [S] is read, and leaves [m_count]
    as it was: afterwards [empty()] holds while [size()] is the old size. *)
Theorem X14_stack_self_assignment {E : Type} (a : nat)
    (st : gmap nat (Stack.Stack E)) (s : Stack.Stack E) :
  st !! a = Some s ->
  Stack.assign a a st = Some (<[a := Stack.Build [] (Stack.m_count s)]> st) /\
  Stack.empty (Stack.Build ([] : list E) (Stack.m_count s)) = true /\
  Stack.size (Stack.Build ([] : list E) (Stack.m_count s)) = Stack.size s.
Proof. intros Hs. split; [by apply assign_self|done]. Qed.

Lemma X14_stack_self_assignment_witness :
  Stack.assign 1 1 {[1%nat := Stack.Build [5; 6; 7] 3]}
  = Some {[1%nat := Stack.Build [] 3]}.
Proof.
  destruct (X14_stack_self_assignment 1 {[1%nat := Stack.Build [5; 6; 7] 3]}
              (Stack.Build [5; 6; 7] 3) ltac:(done)) as [Ha _].
  exact Ha.
Defined.

(** X15.  Moving leaves the source empty with the count 0: the move
    constructor builds a stack equal to its argument, the move assignment
    of [S] to another object [this] makes the state of [this] that of [S],
    and in both cases [S] is then an empty stack; a move assignment of a
    stack to itself empties it. *)
Theorem X15_stack_move {E : Type} (this S : nat)
    (st : gmap nat (Stack.Stack E)) (t s : Stack.Stack E) :
  this <> S -> st !! this = Some t -> st !! S = Some s ->
  Stack.move_assign this S st =
    Some (<[S := Stack.Build [] 0]> (<[this := s]> st)) /\
  Stack.move_assign S S st = Some (<[S := Stack.Build [] 0]> st) /\
  Stack.move_construct s = (s, Stack.Build [] 0).
Proof.
  intros Hne Ht Hs. split; [by apply (move_assign_distinct this S st t s)|].
  split; [by apply (move_assign_self S st s)|].
  unfold Stack.move_construct; simpl. by destruct s.
Qed.

Lemma X15_stack_move_witness :
  Stack.move_assign 1 2
    {[1%nat := Stack.Build [5; 6; 7] 3; 2%nat := Stack.Build [8; 9] 2]}
  = Some {[1%nat := Stack.Build [8; 9] 2; 2%nat := Stack.Build [] 0]}.
Proof.
  destruct (X15_stack_move 1 2
              {[1%nat := Stack.Build [5; 6; 7] 3; 2%nat := Stack.Build [8; 9] 2]}
              (Stack.Build [5; 6; 7] 3) (Stack.Build [8; 9] 2)
              ltac:(done) ltac:(done) ltac:(done))
    as [Ha _].
  exact Ha.
Defined.

(** * Planarity constraints *)

Section ConstraintFacts.

Import MaxPlanarEdges.

Context {node : Type} `{EqDecision node}.
Implicit Types (p : nodePair node) (e : EdgeVar node)
  (c : MaxPlanarEdgesConstraint node).

Lemma pushBack_all (edges acc : list (nodePair node)) :
  fold_left (fun l p => l ++ [p]) edges acc = acc ++ edges.
Proof.
  revert acc. induction edges as [|p edges IH]; intros acc; simpl.
  - by rewrite app_nil_r.
  - by rewrite IH, <- (assoc app).
Qed.

Lemma joins_spec p e :
  joins p e = true <->
  (v1 p = sourceNode e /\ v2 p = targetNode e) \/
  (v1 p = targetNode e /\ v2 p = sourceNode e).
Proof.
  unfold joins.
  rewrite orb_true_iff, !andb_true_iff, !bool_decide_eq_true. tauto.
Qed.

Lemma coeff_loop_spec (edges : list (nodePair node)) e :
  (coeff_loop edges e = 1%Q /\ exists p, p ∈ edges /\ joins p e = true) \/
  (coeff_loop edges e = 0%Q /\ forall p, p ∈ edges -> joins p e = false).
Proof.
  induction edges as [|p edges IH]; simpl.
  - right. split; [done|]. by intros p ?%not_elem_of_nil.
  - destruct (joins p e) eqn:Hj.
    + left. split; [done|]. exists p. split; [left|done].
    + destruct IH as [[H1 (q & Hq & Hjq)]|[H0 Hall]].
      * left. split; [done|]. exists q. split; [by right|done].
      * right. split; [done|]. intros q [->|Hq]%elem_of_cons; [done|by apply Hall].
Qed.

Lemma coeff_loop_swap (edges : list (nodePair node)) e :
  coeff_loop edges (MkEdgeVar (targetNode e) (sourceNode e)) = coeff_loop edges e.
Proof.
  induction edges as [|p edges IH]; simpl; [done|].
  rewrite IH. unfold joins; simpl. by rewrite orb_comm.
Qed.

End ConstraintFacts.

(** X16.  For a constraint built from a list of node pairs, [m_edges] is
    that list in its order, and the coefficient of an edge variable is 1.0
    if a pair of the list has the two end nodes of the edge, in either
    order, and 0.0 otherwise; so it is the same for an edge and its
    reversal.  For a constraint built for the graph it is 1.0 for every
    edge variable. *)
Theorem X16_coeff_of_edge {node : Type} `{EqDecision node} (edgeBound : Z)
    (edges : list (MaxPlanarEdges.nodePair node))
    (e : MaxPlanarEdges.EdgeVar node) :
  let c := MaxPlanarEdges.from_edges edgeBound edges in
  let joined :=
    exists p, p ∈ edges /\
      ((MaxPlanarEdges.v1 p = MaxPlanarEdges.sourceNode e /\
        MaxPlanarEdges.v2 p = MaxPlanarEdges.targetNode e) \/
       (MaxPlanarEdges.v1 p = MaxPlanarEdges.targetNode e /\
        MaxPlanarEdges.v2 p = MaxPlanarEdges.sourceNode e)) in
  MaxPlanarEdges.m_edges c = edges /\
  (MaxPlanarEdges.coeff c e = 1%Q <-> joined) /\
  (MaxPlanarEdges.coeff c e = 0%Q <-> ~ joined) /\
  MaxPlanarEdges.coeff c
    (MaxPlanarEdges.MkEdgeVar (MaxPlanarEdges.targetNode e)
       (MaxPlanarEdges.sourceNode e)) = MaxPlanarEdges.coeff c e /\
  MaxPlanarEdges.coeff (MaxPlanarEdges.for_graph edgeBound) e = 1%Q.
Proof.
  intros c joined.
  assert (Hedges : MaxPlanarEdges.m_edges c = edges).
  { subst c. unfold MaxPlanarEdges.from_edges; simpl. by rewrite pushBack_all. }
  assert (Hc : forall e', MaxPlanarEdges.coeff c e' = MaxPlanarEdges.coeff_loop edges e').
  { intros e'. unfold MaxPlanarEdges.coeff. by rewrite Hedges. }
  assert (Hj : joined <-> exists p, p ∈ edges /\ MaxPlanarEdges.joins p e = true).
  { subst joined. by setoid_rewrite joins_spec. }
  split; [exact Hedges|].
  assert (Hswap : MaxPlanarEdges.coeff c
                    (MaxPlanarEdges.MkEdgeVar (MaxPlanarEdges.targetNode e)
                       (MaxPlanarEdges.sourceNode e)) = MaxPlanarEdges.coeff c e)
    by (rewrite !Hc; apply coeff_loop_swap).
  destruct (coeff_loop_spec edges e) as [[H1 Hex]|[H0 Hall]].
  - apply Hj in Hex. split_and!; try done.
    + rewrite Hc, H1. by split.
    + rewrite Hc, H1. split; [discriminate|]. intros Hn. by destruct Hn.
  - assert (Hn : ~ joined).
    { intros (p & Hp & Hjp)%Hj. rewrite (Hall p Hp) in Hjp. done. }
    split_and!; try done.
    + rewrite Hc, H0. split; [discriminate|done].
    + rewrite Hc, H0. by split.
Qed.
